(** * Multi-image medicine identification: the result merger

    A shallow embedding of [merge_results] and [identify_medicine]
    from [src/main.py], and the properties of the plurality vote they
    implement.

    The embedding covers the inputs of the data model: an entry of the
    [results] list is either a dictionary shaped as the prompt asks
    (two optional lenses, each with four optional text fields and an
    optional list of side effects), possibly carrying an ["error"] key,
    or a JSON value that is not a dictionary at all.

    [merge_results] is embedded twice: as a function on values, which
    most statements are about, and as a computation on a store of
    objects ([Heap.merge_results]), which tells which objects a call
    changes.  [merge_results_run] relates the two. *)

From Stdlib Require Import Strings.Byte.
From stdpp Require Import base option list strings gmap.

Open Scope string_scope.
Open Scope list_scope.

(** ** Input data *)

(** The dictionary under ["accurate"] or ["guessed"]: every key may be
    absent. *)
Record FieldGuess := {
  fg_name : option string;
  fg_dosage : option string;
  fg_side_effects : option (list string);
  fg_manufacturer : option string;
  fg_usage : option string
}.

(** The dictionary [analyze_image] returns for one image.  The key
    ["error"] marks a response that could not be parsed. *)
Record ImageResult := {
  accurate : option FieldGuess;
  guessed : option FieldGuess;
  error : option string
}.

(** What [json.loads] may return: a dictionary, or any other JSON value,
    kept by its text. *)
Inductive entry :=
  | Dict (d : ImageResult)
  | NotDict (json : string).

Definition isinstance_dict (e : entry) : bool :=
  match e with Dict _ => true | NotDict _ => false end.

(** ** Exceptions *)

(** [IndexError] is what [l[0]] raises on an empty list,
    [TransportError] stands for whatever the call of the remote model
    raises.  [OutsideModel] is not a Python exception: it ends a run of
    the store model below on a store that does not hold an input of the
    data model. *)
Inductive exn := IndexError | TransportError (msg : string) | OutsideModel.

Inductive outcome (A : Type) :=
  | Return (a : A)
  | Raise (e : exn).
Arguments Return {A} a.
Arguments Raise {A} e.

(** An exception raised by a statement ends the function: the statements
    after it do not run. *)
#[global] Instance outcome_bind : MBind outcome := λ A B k m,
  match m with Return a => k a | Raise e => Raise e end.

(** ** [collections.Counter]

    A [Counter] is a dictionary from keys to counts; a Python dictionary
    iterates in insertion order, so the model is an association list in
    the order in which the keys were first inserted. *)

Definition Counter := list (string * nat).

(** [c[k] += 1]: a missing key counts as zero and is appended; a key
    already there keeps its place. *)
Fixpoint incr (k : string) (c : Counter) : Counter :=
  match c with
  | [] => [(k, 1)]
  | (k', n) :: c' =>
      if decide (k' = k) then (k', S n) :: c' else (k', n) :: incr k c'
  end.

(** [max(it, key=itemgetter(1))] with a running best: a later item
    replaces the best only when its count is strictly greater. *)
Fixpoint max_item (best : string * nat) (it : list (string * nat))
  : string * nat :=
  match it with
  | [] => best
  | x :: it' => if decide (best.2 < x.2) then max_item x it' else max_item best it'
  end.

(** [c.most_common(1)] is [heapq.nlargest(1, c.items(), key=itemgetter(1))],
    whose shortcut for [n == 1] is [max] over the items, or the empty list
    when there is none. *)
Definition most_common_1 (c : Counter) : list (string * nat) :=
  match c with
  | [] => []
  | x :: it => [max_item x it]
  end.

(** [l[0]] on a list. *)
Definition item0 {A} (l : list A) : outcome A :=
  match l with
  | x :: _ => Return x
  | [] => Raise IndexError
  end.

(** [c.most_common(1)[0][0] if c else "Unknown"]: a [Counter] is falsy
    exactly when it has no key. *)
Definition most_common_or_unknown (c : Counter) : outcome string :=
  match c with
  | [] => Return "Unknown"
  | _ => x ← item0 (most_common_1 c); Return x.1
  end.

(** ** [list(set(xs))]

    The order in which a Python set is iterated depends on the hashes of
    its elements and is not fixed by the language.  The development is
    parametric in that order: any function that lists every element of
    [xs] exactly once will do. *)
Class SetOrder := {
  list_of_set : list string → list string;
  list_of_set_elem xs x : x ∈ list_of_set xs ↔ x ∈ xs;
  list_of_set_NoDup xs : NoDup (list_of_set xs)
}.

(** ** The accumulator [merged_data] *)

Record MergedLens := {
  m_name : Counter;
  m_dosage : Counter;
  m_side_effects : list string;
  m_manufacturer : Counter;
  m_usage : Counter
}.

Record MergedData := {
  m_accurate : MergedLens;
  m_guessed : MergedLens
}.

Definition empty_lens : MergedLens :=
  {| m_name := []; m_dosage := []; m_side_effects := [];
     m_manufacturer := []; m_usage := [] |}.

Definition merged_data_init : MergedData :=
  {| m_accurate := empty_lens; m_guessed := empty_lens |}.

Definition count_name (v : string) (m : MergedLens) : MergedLens :=
  {| m_name := incr v (m_name m); m_dosage := m_dosage m;
     m_side_effects := m_side_effects m;
     m_manufacturer := m_manufacturer m; m_usage := m_usage m |}.

Definition count_dosage (v : string) (m : MergedLens) : MergedLens :=
  {| m_name := m_name m; m_dosage := incr v (m_dosage m);
     m_side_effects := m_side_effects m;
     m_manufacturer := m_manufacturer m; m_usage := m_usage m |}.

Definition extend_side_effects (l : list string) (m : MergedLens) : MergedLens :=
  {| m_name := m_name m; m_dosage := m_dosage m;
     m_side_effects := m_side_effects m ++ l;
     m_manufacturer := m_manufacturer m; m_usage := m_usage m |}.

Definition count_manufacturer (v : string) (m : MergedLens) : MergedLens :=
  {| m_name := m_name m; m_dosage := m_dosage m;
     m_side_effects := m_side_effects m;
     m_manufacturer := incr v (m_manufacturer m); m_usage := m_usage m |}.

Definition count_usage (v : string) (m : MergedLens) : MergedLens :=
  {| m_name := m_name m; m_dosage := m_dosage m;
     m_side_effects := m_side_effects m;
     m_manufacturer := m_manufacturer m; m_usage := incr v (m_usage m) |}.

(** [if key in data: ...] *)
Definition if_in {A B} (o : option A) (f : A → B → B) (b : B) : B :=
  match o with Some v => f v b | None => b end.

(** The five [if "..." in data] statements under one lens, in the order
    of the source. *)
Definition merge_lens (data : FieldGuess) (m : MergedLens) : MergedLens :=
  let m := if_in (fg_name data) count_name m in
  let m := if_in (fg_dosage data) count_dosage m in
  let m := if_in (fg_side_effects data) extend_side_effects m in
  let m := if_in (fg_manufacturer data) count_manufacturer m in
  let m := if_in (fg_usage data) count_usage m in
  m.

Definition merge_accurate (data : FieldGuess) (md : MergedData) : MergedData :=
  {| m_accurate := merge_lens data (m_accurate md); m_guessed := m_guessed md |}.

Definition merge_guessed (data : FieldGuess) (md : MergedData) : MergedData :=
  {| m_accurate := m_accurate md; m_guessed := merge_lens data (m_guessed md) |}.

(** The body of [for result in results]. *)
Definition merge_step (md : MergedData) (result : entry) : MergedData :=
  match result with
  | Dict d =>
      let md := if_in (accurate d) merge_accurate md in
      let md := if_in (guessed d) merge_guessed md in
      md
  | NotDict _ => md
  end.

(** ** The consolidated result *)

Record ConsolidatedLens := {
  c_name : string;
  c_dosage : string;
  c_side_effects : list string;
  c_manufacturer : string;
  c_usage : string
}.

Record ConsolidatedResult := {
  c_accurate : ConsolidatedLens;
  c_guessed : ConsolidatedLens
}.

Section merge.
Context `{SetOrder}.

Definition consolidate_lens (m : MergedLens) : outcome ConsolidatedLens :=
  name ← most_common_or_unknown (m_name m);
  dosage ← most_common_or_unknown (m_dosage m);
  let side_effects := list_of_set (m_side_effects m) in
  manufacturer ← most_common_or_unknown (m_manufacturer m);
  usage ← most_common_or_unknown (m_usage m);
  Return {| c_name := name; c_dosage := dosage;
            c_side_effects := side_effects;
            c_manufacturer := manufacturer; c_usage := usage |}.

Definition merge_results (results : list entry) : outcome ConsolidatedResult :=
  let merged_data := foldl merge_step merged_data_init results in
  a ← consolidate_lens (m_accurate merged_data);
  g ← consolidate_lens (m_guessed merged_data);
  Return {| c_accurate := a; c_guessed := g |}.
End merge.

(** One admissible order: keep the last occurrence of every element. *)
#[global] Instance last_seen_order : SetOrder :=
  {| list_of_set := remove_dups;
     list_of_set_elem := λ xs x, elem_of_remove_dups xs x;
     list_of_set_NoDup := λ xs, NoDup_remove_dups xs |}.

(** Another one: the order of stdpp's finite sets. *)
Definition gset_order : SetOrder :=
  {| list_of_set := λ xs, elements (list_to_set (C:=gset string) xs);
     list_of_set_elem := λ xs x,
       iff_trans (elem_of_elements (list_to_set (C:=gset string) xs) x)
                 (elem_of_list_to_set x xs);
     list_of_set_NoDup := λ xs,
       NoDup_elements (list_to_set (C:=gset string) xs) |}.

(** ** The service around the merger *)

Definition image := list byte.

(** The JSON object [identify_medicine] answers with. *)
Inductive response :=
  | ErrorResponse (msg : string)
  | MedicineResponse (medicine : ConsolidatedResult).

(** The calls [identify_medicine] makes, in order. *)
Inductive call :=
  | CallAnalyze (img : image)
  | CallMerge (responses : list entry).

(** [isinstance(ai_result, dict) and "error" in ai_result] *)
Definition is_failure (ai_result : entry) : bool :=
  match ai_result with
  | Dict d => bool_decide (is_Some (error d))
  | NotDict _ => false
  end.

Section service.
Context `{SetOrder}.
(** [analyze_image] asks the remote model; its answer is not a function
    of this program, and the call may raise. *)
Variable analyze_image : image → outcome entry.

(** [for file in files], with the calls made so far. *)
Fixpoint collect (files : list image) (responses : list entry)
  : list call * outcome (list entry) :=
  match files with
  | [] => ([], Return responses)
  | image_data :: files' =>
      match analyze_image image_data with
      | Raise e => ([CallAnalyze image_data], Raise e)
      | Return ai_result =>
          let responses :=
            if is_failure ai_result then responses
            else responses ++ [ai_result] in
          let '(calls, r) := collect files' responses in
          (CallAnalyze image_data :: calls, r)
      end
  end.

Definition identify_medicine (files : list image) : list call * outcome response :=
  match collect files [] with
  | (calls, Raise e) => (calls, Raise e)
  | (calls, Return []) =>
      (calls, Return (ErrorResponse "Failed to identify medicine from provided images"))
  | (calls, Return responses) =>
      (calls ++ [CallMerge responses],
       final_result ← merge_results responses; Return (MedicineResponse final_result))
  end.
End service.

(** ** Vocabulary of the statements *)

Inductive lens := Accurate | Guessed.
Inductive field := Name | Dosage | Manufacturer | Usage.

#[global] Instance lens_eq_dec : EqDecision lens.
Proof. solve_decision. Defined.

#[global] Instance field_eq_dec : EqDecision field.
Proof. solve_decision. Defined.

Definition lens_in (l : lens) (d : ImageResult) : option FieldGuess :=
  match l with Accurate => accurate d | Guessed => guessed d end.

Definition field_in (f : field) (g : FieldGuess) : option string :=
  match f with
  | Name => fg_name g
  | Dosage => fg_dosage g
  | Manufacturer => fg_manufacturer g
  | Usage => fg_usage g
  end.

(** The value one entry supplies for a field, when it supplies one. *)
Definition observed (l : lens) (f : field) (e : entry) : option string :=
  match e with
  | Dict d => g ← lens_in l d; field_in f g
  | NotDict _ => None
  end.

(** The votes for a field, in the order of the input. *)
Definition votes (l : lens) (f : field) (results : list entry) : list string :=
  omap (observed l f) results.

Definition observed_effects (l : lens) (e : entry) : option (list string) :=
  match e with
  | Dict d => g ← lens_in l d; fg_side_effects g
  | NotDict _ => None
  end.

(** Every side effect listed under a lens, with repetitions. *)
Definition effects (l : lens) (results : list entry) : list string :=
  mjoin (omap (observed_effects l) results).

(** How many votes a value has. *)
Definition tally (v : string) (vs : list string) : nat :=
  length (filter (λ x, x = v) vs).

(** The position of the first vote for a value ([length vs] when it has
    none). *)
Fixpoint first_pos (v : string) (vs : list string) : nat :=
  match vs with
  | [] => 0
  | x :: vs' => if decide (x = v) then 0 else S (first_pos v vs')
  end.

Definition lens_of (l : lens) (r : ConsolidatedResult) : ConsolidatedLens :=
  match l with Accurate => c_accurate r | Guessed => c_guessed r end.

Definition field_of (f : field) (c : ConsolidatedLens) : string :=
  match f with
  | Name => c_name c
  | Dosage => c_dosage c
  | Manufacturer => c_manufacturer c
  | Usage => c_usage c
  end.

Definition consolidated (l : lens) (f : field) (r : ConsolidatedResult) : string :=
  field_of f (lens_of l r).

Definition counter_of (l : lens) (f : field) (md : MergedData) : Counter :=
  let m := match l with Accurate => m_accurate md | Guessed => m_guessed md end in
  match f with
  | Name => m_name m
  | Dosage => m_dosage m
  | Manufacturer => m_manufacturer m
  | Usage => m_usage m
  end.

Definition effects_of (l : lens) (md : MergedData) : list string :=
  m_side_effects (match l with Accurate => m_accurate md | Guessed => m_guessed md end).

(** Two consolidated results that differ at most in the order of their
    side effects. *)
Definition same_lens (a b : ConsolidatedLens) : Prop :=
  c_name a = c_name b ∧ c_dosage a = c_dosage b ∧
  c_manufacturer a = c_manufacturer b ∧ c_usage a = c_usage b ∧
  c_side_effects a ≡ₚ c_side_effects b.

Definition same_result (a b : ConsolidatedResult) : Prop :=
  same_lens (c_accurate a) (c_accurate b) ∧ same_lens (c_guessed a) (c_guessed b).

(** How many entries supply the value [v] for a field.  An entry without
    the field supplies no value, so it is counted for no [v]. *)
Definition support (v : string) (l : lens) (f : field) (results : list entry) : nat :=
  length (filter (λ e, observed l f e = Some v) results).

(** The position in the input of the first entry that supplies [v]
    (the length of the input when no entry does). *)
Fixpoint first_supplied (v : string) (l : lens) (f : field) (results : list entry)
  : nat :=
  match results with
  | [] => 0
  | e :: results' =>
      if decide (observed l f e = Some v) then 0
      else S (first_supplied v l f results')
  end.

(** The entries that have the field. *)
Definition has_field (l : lens) (f : field) (e : entry) : Prop :=
  is_Some (observed l f e).

(** The side effects an input lists under a lens. *)
Definition listed_effect (l : lens) (results : list entry) (x : string) : Prop :=
  ∃ e xs, e ∈ results ∧ observed_effects l e = Some xs ∧ x ∈ xs.

(** The responses that [identify_medicine] keeps. *)
Definition usable (ai_results : list entry) : list entry :=
  filter (λ a, is_failure a = false) ai_results.

Definition is_merge_call (c : call) : Prop :=
  match c with CallMerge _ => True | CallAnalyze _ => False end.

(** ** Sample inputs *)

Definition empty_dict : ImageResult :=
  {| accurate := None; guessed := None; error := None |}.

Definition with_accurate (g : FieldGuess) : entry :=
  Dict {| accurate := Some g; guessed := None; error := None |}.

Definition named (n : string) : FieldGuess :=
  {| fg_name := Some n; fg_dosage := None; fg_side_effects := None;
     fg_manufacturer := None; fg_usage := None |}.

Definition dosed (n : string) : FieldGuess :=
  {| fg_name := None; fg_dosage := Some n; fg_side_effects := None;
     fg_manufacturer := None; fg_usage := None |}.

Definition with_effects (l : list string) : FieldGuess :=
  {| fg_name := None; fg_dosage := None; fg_side_effects := Some l;
     fg_manufacturer := None; fg_usage := None |}.

(** The marker [analyze_image] returns for an answer it cannot parse. *)
Definition invalid_response : entry :=
  Dict {| accurate := None; guessed := None;
          error := Some "Invalid AI response" |}.

(** A stand-in for the remote model: the empty image cannot be read,
    every other image shows medicine [A]. *)
Definition sample_model (img : image) : outcome entry :=
  match img with
  | [] => Return invalid_response
  | _ => Return (with_accurate (named "A"))
  end.

Definition unknown_lens : ConsolidatedLens :=
  {| c_name := "Unknown"; c_dosage := "Unknown"; c_side_effects := [];
     c_manufacturer := "Unknown"; c_usage := "Unknown" |}.

Definition unknown_result : ConsolidatedResult :=
  {| c_accurate := unknown_lens; c_guessed := unknown_lens |}.

(** ** The same function on a store of objects

    [merge_results] above takes its input as a value.  In Python the
    input is a list object that refers to dictionary objects, which
    refer to list objects, and [Counter.__iadd__] and [list.extend]
    change objects in place.  The model below keeps every container in a
    store, so that it can be said which objects a call changes. *)
Module Heap.

Definition loc := nat.

(** An entry of the [results] list: a reference to a dictionary, or a
    JSON value that is not a dictionary, kept by its text. *)
Inductive item :=
  | Ref (l : loc)
  | Plain (json : string).

Inductive obj :=
  | ObjList (items : list string)
  | ObjLens (name dosage : option string) (side_effects : option loc)
            (manufacturer usage : option string)
  | ObjResult (accurate guessed : option loc) (error : option string)
  | ObjResults (items : list item)
  | ObjCounter (c : Counter).

Abbreviation store := (gmap loc obj).

(** A computation reads and changes the store, and returns or raises. *)
Definition heapM (A : Type) : Type := store → outcome (A * store).

#[global] Instance heapM_ret : MRet heapM := λ A a σ, Return (a, σ).
#[global] Instance heapM_bind : MBind heapM := λ A B k m σ,
  match m σ with
  | Return (a, σ') => k a σ'
  | Raise e => Raise e
  end.

Definition raise {A} (e : exn) : heapM A := λ _, Raise e.

Definition lift {A} (m : outcome A) : heapM A := λ σ,
  match m with Return a => Return (a, σ) | Raise e => Raise e end.

(** A new object gets a location that no object has. *)
Definition alloc (o : obj) : heapM loc := λ σ,
  let l := fresh (dom σ) in Return (l, <[l:=o]> σ).

Definition load (l : loc) : heapM obj := λ σ,
  match σ !! l with
  | Some o => Return (o, σ)
  | None => Raise OutsideModel
  end.

Definition write (l : loc) (o : obj) : heapM unit := λ σ,
  Return ((), <[l:=o]> σ).

Definition load_list (l : loc) : heapM (list string) :=
  o ← load l;
  match o with ObjList xs => mret xs | _ => raise OutsideModel end.

Definition load_counter (l : loc) : heapM Counter :=
  o ← load l;
  match o with ObjCounter c => mret c | _ => raise OutsideModel end.

(** [counter[k] += 1] *)
Definition counter_incr (counter : loc) (k : string) : heapM unit :=
  c ← load_counter counter;
  write counter (ObjCounter (incr k c)).

(** [target.extend(source)] *)
Definition list_extend (target : loc) (source : loc) : heapM unit :=
  xs ← load_list source;
  ys ← load_list target;
  write target (ObjList (ys ++ xs)).

(** [if key in data: body(data[key])] *)
Definition when_in {A} (o : option A) (body : A → heapM unit) : heapM unit :=
  match o with Some v => body v | None => mret () end.

(** The objects under [merged_data["accurate"]] or
    [merged_data["guessed"]]. *)
Record MergedRefs := {
  r_name : loc;
  r_dosage : loc;
  r_side_effects : loc;
  r_manufacturer : loc;
  r_usage : loc
}.

(** The dictionary literal with four [Counter()] and one [[]]. *)
Definition new_merged : heapM MergedRefs :=
  name ← alloc (ObjCounter []);
  dosage ← alloc (ObjCounter []);
  side_effects ← alloc (ObjList []);
  manufacturer ← alloc (ObjCounter []);
  usage ← alloc (ObjCounter []);
  mret {| r_name := name; r_dosage := dosage; r_side_effects := side_effects;
          r_manufacturer := manufacturer; r_usage := usage |}.

Definition merge_lens (data : loc) (m : MergedRefs) : heapM unit :=
  o ← load data;
  match o with
  | ObjLens name dosage side_effects manufacturer usage =>
      when_in name (counter_incr (r_name m));;
      when_in dosage (counter_incr (r_dosage m));;
      when_in side_effects (list_extend (r_side_effects m));;
      when_in manufacturer (counter_incr (r_manufacturer m));;
      when_in usage (counter_incr (r_usage m))
  | _ => raise OutsideModel
  end.

(** The body of [for result in results]. *)
Definition merge_step (ma mg : MergedRefs) (result : item) : heapM unit :=
  match result with
  | Plain _ => mret ()
  | Ref l =>
      o ← load l;
      match o with
      | ObjResult accurate guessed _ =>
          when_in accurate (λ data, merge_lens data ma);;
          when_in guessed (λ data, merge_lens data mg)
      | _ => raise OutsideModel
      end
  end.

Fixpoint for_each {A} (body : A → heapM unit) (xs : list A) : heapM unit :=
  match xs with
  | [] => mret ()
  | x :: xs' => body x;; for_each body xs'
  end.

(** A returned lens: the text fields, and the new list object. *)
Record LensRefs := {
  o_name : string;
  o_dosage : string;
  o_side_effects : loc;
  o_manufacturer : string;
  o_usage : string
}.

Record ResultRefs := {
  o_accurate : LensRefs;
  o_guessed : LensRefs
}.

Section merge.
Context `{SetOrder}.

Definition most_common (counter : loc) : heapM string :=
  c ← load_counter counter;
  lift (most_common_or_unknown c).

Definition consolidate_lens (m : MergedRefs) : heapM LensRefs :=
  name ← most_common (r_name m);
  dosage ← most_common (r_dosage m);
  xs ← load_list (r_side_effects m);
  side_effects ← alloc (ObjList (list_of_set xs));
  manufacturer ← most_common (r_manufacturer m);
  usage ← most_common (r_usage m);
  mret {| o_name := name; o_dosage := dosage; o_side_effects := side_effects;
          o_manufacturer := manufacturer; o_usage := usage |}.

(** The items of [results] are read once: the loop does not change
    the list it iterates over. *)
Definition merge_results (results : loc) : heapM ResultRefs :=
  ma ← new_merged;
  mg ← new_merged;
  o ← load results;
  match o with
  | ObjResults items =>
      for_each (merge_step ma mg) items;;
      a ← consolidate_lens ma;
      g ← consolidate_lens mg;
      mret {| o_accurate := a; o_guessed := g |}
  | _ => raise OutsideModel
  end.
End merge.

(** *** Reading values back from the store *)

Definition effects_at (σ : store) (o : option loc) : option (option (list string)) :=
  match o with
  | None => Some None
  | Some l =>
      match σ !! l with
      | Some (ObjList xs) => Some (Some xs)
      | _ => None
      end
  end.

Definition lens_at (σ : store) (o : option loc) : option (option FieldGuess) :=
  match o with
  | None => Some None
  | Some l =>
      match σ !! l with
      | Some (ObjLens name dosage side_effects manufacturer usage) =>
          xs ← effects_at σ side_effects;
          Some (Some {| fg_name := name; fg_dosage := dosage;
                        fg_side_effects := xs;
                        fg_manufacturer := manufacturer; fg_usage := usage |})
      | _ => None
      end
  end.

Definition entry_at (σ : store) (i : item) : option entry :=
  match i with
  | Plain json => Some (NotDict json)
  | Ref l =>
      match σ !! l with
      | Some (ObjResult a g err) =>
          a ← lens_at σ a;
          g ← lens_at σ g;
          Some (Dict {| accurate := a; guessed := g; error := err |})
      | _ => None
      end
  end.

(** The input that the list object at [results] stands for, when the
    store holds an input of the data model there. *)
Definition input_at (σ : store) (results : loc) : option (list entry) :=
  match σ !! results with
  | Some (ObjResults items) => mapM (entry_at σ) items
  | _ => None
  end.

Definition output_lens_at (σ : store) (o : LensRefs) : option ConsolidatedLens :=
  match σ !! o_side_effects o with
  | Some (ObjList xs) =>
      Some {| c_name := o_name o; c_dosage := o_dosage o; c_side_effects := xs;
              c_manufacturer := o_manufacturer o; c_usage := o_usage o |}
  | _ => None
  end.

Definition output_at (σ : store) (o : ResultRefs) : option ConsolidatedResult :=
  a ← output_lens_at σ (o_accurate o);
  g ← output_lens_at σ (o_guessed o);
  Some {| c_accurate := a; c_guessed := g |}.

(** *** A sample store *)

Definition sample_store : store :=
  <[0 := ObjList ["nausea"; "rash"]]>
  (<[1 := ObjLens (Some "A") None (Some 0) None None]>
  (<[2 := ObjResult (Some 1) None None]>
  (<[3 := ObjResults [Ref 2; Plain "null"; Ref 2]]> ∅))).

Definition sample_input : list entry :=
  let g := {| fg_name := Some "A"; fg_dosage := None;
              fg_side_effects := Some ["nausea"; "rash"];
              fg_manufacturer := None; fg_usage := None |} in
  [with_accurate g; NotDict "null"; with_accurate g].

End Heap.

(** ** The answer of the remote model

    [analyze_image] sends one image to the model, removes the code-fence
    marks from the text of the answer and parses what is left as JSON. *)

(** A Python [str] is a sequence of code points. *)
Definition char := N.
Definition text := list char.

(** An ASCII literal. *)
Definition lit (s : string) : text :=
  (λ a, Ascii.N_of_ascii a) <$> String.list_ascii_of_string s.

Definition backtick : char := 96%N.
Definition fence : text := lit "```".
Definition fence_json : text := lit "```json".

Section cleaning.
(** [str.strip()] removes the characters for which [str.isspace] holds;
    which ones these are is a table of the Unicode database of the
    interpreter, taken here as a parameter. *)
Variable isspace : char → bool.

Fixpoint lstrip (s : text) : text :=
  match s with
  | [] => []
  | c :: s' => if isspace c then lstrip s' else s
  end.

Fixpoint rstrip (s : text) : text :=
  match s with
  | [] => []
  | c :: s' =>
      match rstrip s' with
      | [] => if isspace c then [] else [c]
      | r => c :: r
      end
  end.

(** [s.strip()]: the slice from the first to the last character that is
    not whitespace. *)
Definition strip (s : text) : text := rstrip (lstrip s).

(** [s.replace(old, new)] for a non-empty [old], scanning from the left:
    where [old] starts, [new] is put and the characters of [old] are
    skipped, so that occurrences do not overlap. *)
Fixpoint replace_from (old new : text) (skip : nat) (s : text) : text :=
  match s with
  | [] => []
  | c :: s' =>
      match skip with
      | S k => replace_from old new k s'
      | 0 =>
          if decide (old `prefix_of` s)
          then new ++ replace_from old new (length old - 1) s'
          else c :: replace_from old new 0 s'
      end
  end.

(** With the empty [old], [new] is put before every character and at
    the end. *)
Definition replace (old new s : text) : text :=
  match old with
  | [] => new ++ mjoin ((λ c, c :: new) <$> s)
  | _ => replace_from old new 0 s
  end.

(** [response.text.strip().replace("```json", "").replace("```", "").strip()] *)
Definition clean_response (response_text : text) : text :=
  strip (replace fence [] (replace fence_json [] (strip response_text))).

(** [Image.open], [model.generate_content] and [response.text]: the
    text the remote model answers with, or the exception of the call. *)
Variable generate_content : image → outcome text.

(** [json.loads]; [None] stands for [json.JSONDecodeError]. *)
Variable json_loads : text → option entry.

Definition analyze_image (image : image) : outcome entry :=
  response_text ← generate_content image;
  match json_loads (clean_response response_text) with
  | Some parsed => Return parsed
  | None => Return invalid_response
  end.
End cleaning.

(** [old] occurs in [s]. *)
Definition occurs (old s : text) : Prop := ∃ a b, s = a ++ old ++ b.

(** The number of backticks a text starts with. *)
Fixpoint leading_backticks (s : text) : nat :=
  match s with
  | [] => 0
  | c :: s' => if decide (c = backtick) then S (leading_backticks s') else 0
  end.

(** A text that neither starts nor ends with whitespace. *)
Definition trimmed (isspace : char → bool) (s : text) : Prop :=
  (∀ c, head s = Some c → isspace c = false) ∧
  (∀ c, last s = Some c → isspace c = false).

(** The whitespace of ASCII, for the sample inputs. *)
Definition ascii_space (c : char) : bool :=
  bool_decide (c ∈ [9; 10; 11; 12; 13; 32]%N).

(** An answer [t] and the same answer inside a fence, with whitespace
    around it. *)
Definition fenced (isspace : char → bool) (t t' : text) : Prop :=
  ∃ ws1 ws2,
    Forall (λ c, isspace c = true) ws1 ∧ Forall (λ c, isspace c = true) ws2 ∧
    t' = ws1 ++ fence_json ++ t ++ fence ++ ws2.

(** Stand-ins for the remote model and for the parser: the empty image
    gets an answer that is no JSON, every other image an empty object;
    the parser knows the empty object only. *)
Definition sample_generate (img : image) : outcome text :=
  match img with
  | [] => Return (lit "no medicine here")
  | _ => Return (lit "{}")
  end.

Definition sample_generate_fenced (img : image) : outcome text :=
  match img with
  | [] => Return (lit "no medicine here")
  | _ => Return (lit " ```json{}``` ")
  end.

Definition sample_loads (t : text) : option entry :=
  if decide (t = lit "{}") then Some (Dict empty_dict) else None.

(** A remote model that is down for the empty image. *)
Definition sample_model_down (img : image) : outcome entry :=
  match img with
  | [] => Raise (TransportError "unreachable")
  | _ => Return (with_accurate (named "A"))
  end.

(** ** Vocabulary of the proofs *)

(** The counter a sequence of votes leaves behind. *)
Definition tally_counter (vs : list string) : Counter :=
  foldl (λ c v, incr v c) [] vs.

(** [c[k]] *)
Fixpoint get (k : string) (c : Counter) : nat :=
  match c with
  | [] => 0
  | (k', n) :: c' => if decide (k' = k) then n else get k c'
  end.

(** The value [most_common_or_unknown] returns. *)
Definition pick (c : Counter) : string :=
  match c with
  | [] => "Unknown"
  | x :: it => (max_item x it).1
  end.

Definition vote (c : Counter) (v : string) : Counter := incr v c.

(** The consolidated result, field by field. *)
Definition consolidated_lens `{SetOrder} (l : lens) (results : list entry)
  : ConsolidatedLens :=
  {| c_name := pick (tally_counter (votes l Name results));
     c_dosage := pick (tally_counter (votes l Dosage results));
     c_side_effects := list_of_set (effects l results);
     c_manufacturer := pick (tally_counter (votes l Manufacturer results));
     c_usage := pick (tally_counter (votes l Usage results)) |}.

(** One update of the accumulator under one lens. *)
Definition on_lens (l : lens) (f : MergedLens → MergedLens) (md : MergedData)
  : MergedData :=
  match l with
  | Accurate => {| m_accurate := f (m_accurate md); m_guessed := m_guessed md |}
  | Guessed => {| m_accurate := m_accurate md; m_guessed := f (m_guessed md) |}
  end.

Definition count_field (f : field) : string → MergedLens → MergedLens :=
  match f with
  | Name => count_name
  | Dosage => count_dosage
  | Manufacturer => count_manufacturer
  | Usage => count_usage
  end.

(** The five objects under one lens of [merged_data]. *)
Inductive slot := CounterSlot (f : field) | EffectsSlot.

#[global] Instance slot_eq_dec : EqDecision slot.
Proof. solve_decision. Defined.

Definition ref_of (m : Heap.MergedRefs) (s : slot) : Heap.loc :=
  match s with
  | CounterSlot Name => Heap.r_name m
  | CounterSlot Dosage => Heap.r_dosage m
  | CounterSlot Manufacturer => Heap.r_manufacturer m
  | CounterSlot Usage => Heap.r_usage m
  | EffectsSlot => Heap.r_side_effects m
  end.

Definition refs_of (ma mg : Heap.MergedRefs) (l : lens) : Heap.MergedRefs :=
  match l with Accurate => ma | Guessed => mg end.

(** What the object of a slot holds when the accumulator is [md]. *)
Definition content (md : MergedData) (l : lens) (s : slot) : Heap.obj :=
  match s with
  | CounterSlot f => Heap.ObjCounter (counter_of l f md)
  | EffectsSlot => Heap.ObjList (effects_of l md)
  end.

(** The objects of [merged_data] are new and distinct. *)
Record merged_fresh (σ0 : gmap Heap.loc Heap.obj) (ma mg : Heap.MergedRefs) : Prop := {
  fresh_new : ∀ l s, σ0 !! ref_of (refs_of ma mg l) s = None;
  fresh_distinct : ∀ l s l' s',
    ref_of (refs_of ma mg l) s = ref_of (refs_of ma mg l') s' → l = l' ∧ s = s'
}.

(** The loop invariant: the objects of the input are as they were, and
    the objects of [merged_data] hold the accumulator [md]. *)
Record merged_inv (σ0 σ : gmap Heap.loc Heap.obj) (ma mg : Heap.MergedRefs)
    (md : MergedData) : Prop := {
  inv_frame : σ0 ⊆ σ;
  inv_holds : ∀ l s, σ !! ref_of (refs_of ma mg l) s = Some (content md l s)
}.

(** * Properties *)

(** ** Counters *)

Lemma most_common_or_unknown_pick c : most_common_or_unknown c = Return (pick c).
Proof. by destruct c. Qed.

Lemma get_incr k k' c :
  get k' (incr k c) = if decide (k' = k) then S (get k' c) else get k' c.
Proof.
  induction c as [|[k0 n] c IH]; simpl.
  - repeat case_decide; congruence.
  - destruct (decide (k0 = k)) as [->|Hk]; simpl.
    + repeat case_decide; congruence.
    + rewrite IH. repeat case_decide; congruence.
Qed.

Lemma incr_keys k c :
  (incr k c).*1 = if decide (k ∈ c.*1) then c.*1 else c.*1 ++ [k].
Proof.
  induction c as [|[k0 n] c IH]; csimpl.
  - done.
  - destruct (decide (k0 = k)) as [->|Hk]; csimpl.
    + rewrite decide_True; [done | left].
    + rewrite IH. destruct (decide (k ∈ c.*1)) as [Hin|Hin].
      * rewrite decide_True; [done | by right].
      * rewrite decide_False; [done |].
        intros [?|?]%elem_of_cons; congruence.
Qed.

Lemma get_elem c k n : NoDup c.*1 → (k, n) ∈ c → get k c = n.
Proof.
  induction c as [|[k0 m] c IH]; simpl; intros Hnd Hin.
  - by apply elem_of_nil in Hin.
  - apply NoDup_cons in Hnd as [Hk0 Hnd].
    apply elem_of_cons in Hin as [[= -> ->]|Hin].
    + by rewrite decide_True.
    + rewrite decide_False; [by apply IH |].
      intros ->. apply Hk0. apply list_elem_of_fmap. by exists (k, n).
Qed.

Lemma tally_snoc v k vs :
  tally v (vs ++ [k]) = if decide (v = k) then S (tally v vs) else tally v vs.
Proof.
  unfold tally. rewrite filter_app, length_app.
  rewrite filter_cons, filter_nil.
  repeat case_decide; simpl; try congruence; lia.
Qed.

Lemma tally_positive v vs : 0 < tally v vs ↔ v ∈ vs.
Proof.
  unfold tally. induction vs as [|x vs IH]; simpl.
  - rewrite elem_of_nil. lia.
  - rewrite filter_cons, elem_of_cons. case_decide; simpl.
    + split; [auto | lia].
    + rewrite IH. split; [auto | by intros [?|?]].
Qed.

Lemma tally_counter_snoc vs v :
  tally_counter (vs ++ [v]) = incr v (tally_counter vs).
Proof. unfold tally_counter. by rewrite foldl_app. Qed.

Lemma get_tally_counter k vs : get k (tally_counter vs) = tally k vs.
Proof.
  induction vs as [|v vs IH] using rev_ind; [done |].
  rewrite tally_counter_snoc, get_incr, tally_snoc, IH. done.
Qed.

Lemma tally_counter_keys_elem vs k : k ∈ (tally_counter vs).*1 ↔ k ∈ vs.
Proof.
  revert k. induction vs as [|v vs IH] using rev_ind; intros k.
  - simpl. by rewrite !elem_of_nil.
  - rewrite tally_counter_snoc, incr_keys, elem_of_app, list_elem_of_singleton.
    case_decide as Hin.
    + rewrite IH. rewrite IH in Hin. split; [auto | by intros [?| ->]].
    + rewrite elem_of_app, list_elem_of_singleton, IH. done.
Qed.

Lemma tally_counter_keys_NoDup vs : NoDup (tally_counter vs).*1.
Proof.
  induction vs as [|v vs IH] using rev_ind; [constructor |].
  rewrite tally_counter_snoc, incr_keys. case_decide as Hin; [done |].
  apply NoDup_app. split_and!; [done | | apply NoDup_singleton].
  intros x Hx ->%list_elem_of_singleton. done.
Qed.

Lemma first_pos_lt v vs : v ∈ vs → first_pos v vs < length vs.
Proof.
  induction vs as [|x vs IH]; simpl; intros Hin.
  - by apply elem_of_nil in Hin.
  - case_decide; [lia |].
    apply elem_of_cons in Hin as [->|Hin]; [done |]. specialize (IH Hin). lia.
Qed.

Lemma first_pos_app_l v vs ws : v ∈ vs → first_pos v (vs ++ ws) = first_pos v vs.
Proof.
  induction vs as [|x vs IH]; simpl; intros Hin.
  - by apply elem_of_nil in Hin.
  - case_decide; [done |].
    apply elem_of_cons in Hin as [->|Hin]; [done |]. by rewrite IH.
Qed.

Lemma first_pos_fresh v vs : v ∉ vs → first_pos v (vs ++ [v]) = length vs.
Proof.
  induction vs as [|x vs IH]; simpl; intros Hin.
  - by rewrite decide_True.
  - apply not_elem_of_cons in Hin as [Hne Hin].
    rewrite decide_False by done. by rewrite IH.
Qed.

(** The keys of the counter stand in the order of their first votes. *)
Lemma tally_counter_keys_ordered vs i j a b :
  (tally_counter vs).*1 !! i = Some a →
  (tally_counter vs).*1 !! j = Some b →
  i < j → first_pos a vs < first_pos b vs.
Proof.
  revert i j a b. induction vs as [|v vs IH] using rev_ind; intros i j a b.
  - simpl. by rewrite lookup_nil.
  - rewrite tally_counter_snoc, incr_keys.
    assert (Hold : ∀ i a, (tally_counter vs).*1 !! i = Some a → a ∈ vs).
    { intros i' a' Hl. apply tally_counter_keys_elem. by eapply list_elem_of_lookup_2. }
    case_decide as Hin.
    + intros Ha Hb Hij. rewrite !first_pos_app_l by eauto. eauto.
    + intros Ha Hb Hij.
      apply lookup_app_Some in Hb as [Hb|[Hlen Hb]].
      * rewrite lookup_app_l in Ha
          by (apply lookup_lt_Some in Hb; lia).
        rewrite !first_pos_app_l by eauto. eauto.
      * apply list_lookup_singleton_Some in Hb as [Hj <-].
        rewrite lookup_app_l in Ha by lia.
        rewrite first_pos_app_l by eauto.
        rewrite first_pos_fresh by (by rewrite <- tally_counter_keys_elem).
        apply first_pos_lt. eauto.
Qed.

(** [max] returns the first item whose count is the greatest. *)
Lemma max_item_spec best it :
  ∃ j, (best :: it) !! j = Some (max_item best it) ∧
    ∀ i z, (best :: it) !! i = Some z →
      (z.2 ≤ (max_item best it).2)%nat ∧ (i < j → z.2 < (max_item best it).2).
Proof.
  revert best. induction it as [|x it IH]; intros best; simpl.
  - exists 0. split; [done |]. intros i z Hz.
    destruct i as [|i]; simplify_eq/=. lia.
  - case_decide as Hlt.
    + destruct (IH x) as (j & Hj & Hall). exists (S j). split; [done |].
      intros i z Hz. destruct i as [|i]; simplify_eq/=.
      * destruct (Hall 0 x eq_refl) as [Hle _]. lia.
      * destruct (Hall i z Hz) as [Hle Hlt']. split; [done |].
        intros ?. apply Hlt'. lia.
    + destruct (IH best) as (j & Hj & Hall).
      destruct (Hall 0 best eq_refl) as [Hbest Hbest'].
      destruct j as [|j].
      * exists 0. split; [done |]. intros i z Hz.
        destruct i as [|[|i]]; simplify_eq/=; [lia | lia |].
        destruct (Hall (S i) z Hz) as [Hle _]. lia.
      * exists (S (S j)). split; [done |]. intros i z Hz.
        specialize (Hbest' ltac:(lia)).
        destruct i as [|[|i]]; simplify_eq/=; [lia | lia |].
        destruct (Hall (S i) z Hz) as [Hle Hlt']. split; [done |].
        intros ?. apply Hlt'. lia.
Qed.

(** The value picked from the counter of a non-empty sequence of votes
    was voted for, has the greatest tally, and among the values with
    that tally is the one voted for first. *)
Lemma pick_spec vs :
  vs ≠ [] →
  pick (tally_counter vs) ∈ vs ∧
  (∀ u, (tally u vs ≤ tally (pick (tally_counter vs)) vs)%nat) ∧
  (∀ w, w ≠ pick (tally_counter vs) →
        tally w vs = tally (pick (tally_counter vs)) vs →
        first_pos (pick (tally_counter vs)) vs < first_pos w vs).
Proof.
  intros Hvs.
  pose proof (tally_counter_keys_NoDup vs) as Hnd.
  pose proof (tally_counter_keys_elem vs) as Hkeys.
  pose proof (tally_counter_keys_ordered vs) as Hord.
  pose proof (get_tally_counter) as Hget.
  destruct (tally_counter vs) as [|x it] eqn:Hc.
  { destruct vs as [|v vs]; [done |].
    specialize (Hkeys v). rewrite elem_of_nil in Hkeys.
    exfalso. apply Hkeys. left. }
  unfold pick. destruct (max_item_spec x it) as (j & Hj & Hmax).
  destruct (max_item x it) as [v n] eqn:Hv. cbn [fst snd] in *.
  assert (Hcount : ∀ i k m, (x :: it) !! i = Some (k, m) → m = tally k vs).
  { intros i k m Hl. rewrite <- Hget, Hc. symmetry. apply get_elem; [done |].
    by eapply list_elem_of_lookup_2. }
  assert (Hidx : ∀ k, k ∈ vs → ∃ i, (x :: it) !! i = Some (k, tally k vs)).
  { intros k Hk. apply Hkeys in Hk.
    apply list_elem_of_fmap in Hk as ([k' m] & -> & Hk).
    apply list_elem_of_lookup_1 in Hk as [i Hi]. exists i. cbn [fst].
    by rewrite <- (Hcount i k' m Hi). }
  pose proof (Hcount j v n Hj) as ->.
  assert (Hin : v ∈ vs).
  { apply Hkeys. apply list_elem_of_fmap. exists (v, tally v vs).
    split; [done |]. by eapply list_elem_of_lookup_2. }
  split_and!; [done | |].
  - intros u. destruct (decide (u ∈ vs)) as [Hu|Hu].
    + destruct (Hidx u Hu) as [i Hi]. by destruct (Hmax i _ Hi).
    + assert (tally u vs = 0); [|lia].
      pose proof (tally_positive u vs). destruct (tally u vs); [done |].
      exfalso. apply Hu. apply H. lia.
  - intros w Hw Htie.
    assert (Hwin : w ∈ vs).
    { apply tally_positive. rewrite Htie. by apply tally_positive. }
    destruct (Hidx w Hwin) as [i Hi].
    destruct (Hmax i _ Hi) as [_ Hbefore]. cbn [fst snd] in *.
    destruct (lt_eq_lt_dec i j) as [[Hlt| ->]|Hgt].
    + specialize (Hbefore Hlt). lia.
    + congruence.
    + apply (Hord j i).
      * by rewrite list_lookup_fmap, Hj.
      * by rewrite list_lookup_fmap, Hi.
      * done.
Qed.

(** ** The loop *)

(** What one entry does to the counter of one field. *)
Lemma merge_step_counter l f md e :
  counter_of l f (merge_step md e) =
  from_option (vote (counter_of l f md)) (counter_of l f md) (observed l f e).
Proof.
  destruct e as [[a g err]|j]; [|done].
  destruct l, f, a as [[a1 a2 a3 a4 a5]|], g as [[g1 g2 g3 g4 g5]|]; simpl;
    repeat match goal with o : option _ |- _ => destruct o end; reflexivity.
Qed.

(** What one entry does to the list of side effects of one lens. *)
Lemma merge_step_effects l md e :
  effects_of l (merge_step md e) =
  effects_of l md ++ default [] (observed_effects l e).
Proof.
  destruct e as [[a g err]|j]; [|by rewrite app_nil_r].
  destruct l, a as [[a1 a2 a3 a4 a5]|], g as [[g1 g2 g3 g4 g5]|]; simpl;
    repeat match goal with o : option _ |- _ => destruct o end;
    simpl; by rewrite ?app_nil_r.
Qed.

Lemma merge_loop_counter l f results md :
  counter_of l f (foldl merge_step md results) =
  foldl vote (counter_of l f md) (votes l f results).
Proof.
  revert md. induction results as [|e results IH]; intros md; [done |].
  simpl. rewrite IH, merge_step_counter. unfold votes. simpl.
  by destruct (observed l f e).
Qed.

Lemma merge_loop_effects l results md :
  effects_of l (foldl merge_step md results) = effects_of l md ++ effects l results.
Proof.
  revert md. induction results as [|e results IH]; intros md.
  - by rewrite app_nil_r.
  - simpl. rewrite IH, merge_step_effects. unfold effects. simpl.
    destruct (observed_effects l e); simpl; by rewrite <- ?app_assoc, ?app_nil_r.
Qed.

(** [merge_results] returns on every input, and what it returns. *)
Lemma merge_results_returns `{SetOrder} results :
  merge_results results =
  Return {| c_accurate := consolidated_lens Accurate results;
            c_guessed := consolidated_lens Guessed results |}.
Proof.
  unfold merge_results, consolidate_lens.
  rewrite !most_common_or_unknown_pick. simpl.
  pose proof (λ l f, merge_loop_counter l f results merged_data_init) as Hc.
  pose proof (λ l, merge_loop_effects l results merged_data_init) as He.
  pose proof (Hc Accurate Name) as H1. pose proof (Hc Accurate Dosage) as H2.
  pose proof (Hc Accurate Manufacturer) as H3. pose proof (Hc Accurate Usage) as H4.
  pose proof (Hc Guessed Name) as H5. pose proof (Hc Guessed Dosage) as H6.
  pose proof (Hc Guessed Manufacturer) as H7. pose proof (Hc Guessed Usage) as H8.
  pose proof (He Accurate) as H9. pose proof (He Guessed) as H10.
  clear Hc He. cbv [counter_of effects_of] in *. simpl in *.
  unfold consolidated_lens, tally_counter.
  by rewrite H1, H2, H3, H4, H5, H6, H7, H8, H9, H10.
Qed.

Lemma consolidated_returns `{SetOrder} results l f :
  consolidated l f
    {| c_accurate := consolidated_lens Accurate results;
       c_guessed := consolidated_lens Guessed results |} =
  pick (tally_counter (votes l f results)).
Proof. by destruct l, f. Qed.

(** ** Votes and side effects of an input *)

Lemma support_tally v l f results :
  support v l f results = tally v (votes l f results).
Proof.
  unfold support, tally, votes.
  induction results as [|e results IH]; [done |].
  rewrite filter_cons. csimpl. destruct (observed l f e) as [x|]; csimpl.
  - rewrite filter_cons. repeat case_decide; simplify_eq; csimpl; congruence.
  - exact IH.
Qed.

Lemma first_supplied_votes v w l f results :
  first_pos v (votes l f results) < first_pos w (votes l f results) ↔
  first_supplied v l f results < first_supplied w l f results.
Proof.
  unfold votes. induction results as [|e results IH]; [done |].
  csimpl. destruct (observed l f e) as [x|]; csimpl.
  - repeat case_decide; simplify_eq; try lia; congruence.
  - rewrite IH. lia.
Qed.

Lemma votes_elem l f results v :
  v ∈ votes l f results ↔ ∃ e, e ∈ results ∧ observed l f e = Some v.
Proof. apply list_elem_of_omap. Qed.

Lemma votes_nil_iff l f results :
  votes l f results = [] ↔ ∀ e, e ∈ results → observed l f e = None.
Proof.
  split.
  - intros Hnil e He. destruct (observed l f e) as [v|] eqn:Hobs; [|done].
    assert (v ∈ votes l f results) as Hv by (apply votes_elem; eauto).
    rewrite Hnil in Hv. by apply elem_of_nil in Hv.
  - intros Hall. destruct (votes l f results) as [|v vs] eqn:Hv; [done |].
    assert (v ∈ votes l f results) as Hin by (rewrite Hv; left).
    apply votes_elem in Hin as (e & He & Hobs). rewrite (Hall e He) in Hobs. done.
Qed.

Lemma votes_filter_has_field l f results :
  votes l f (filter (has_field l f) results) = votes l f results.
Proof.
  unfold votes, has_field. induction results as [|e results IH]; [done |].
  rewrite filter_cons. case_decide as He; csimpl.
  - by rewrite IH.
  - rewrite IH. destruct (observed l f e) eqn:Hobs; [|done].
    exfalso. apply He. eauto.
Qed.

Lemma effects_elem l results x :
  x ∈ effects l results ↔ listed_effect l results x.
Proof.
  unfold effects, listed_effect. rewrite list_elem_of_join. split.
  - intros (xs & Hx & (e & He & Hobs)%list_elem_of_omap). eauto.
  - intros (e & xs & He & Hobs & Hx). exists xs. split; [done |].
    apply list_elem_of_omap. eauto.
Qed.

Lemma list_of_set_nil `{SetOrder} : list_of_set [] = [].
Proof.
  destruct (list_of_set []) as [|x xs] eqn:Hxs; [done |].
  assert (x ∈ list_of_set []) as Hx by (rewrite Hxs; left).
  apply (proj1 (list_of_set_elem _ _)) in Hx. by apply elem_of_nil in Hx.
Qed.

(** Two enumerations of lists with the same elements are permutations
    of each other, whatever the two orders. *)
Lemma list_of_set_perm (O1 O2 : SetOrder) xs ys :
  (∀ x, x ∈ xs ↔ x ∈ ys) →
  @list_of_set O1 xs ≡ₚ @list_of_set O2 ys.
Proof.
  intros Hsame. apply NoDup_Permutation; try apply list_of_set_NoDup.
  intros x. by rewrite !list_of_set_elem.
Qed.

Lemma merge_loop_not_dict md results :
  foldl merge_step md (filter isinstance_dict results) = foldl merge_step md results.
Proof.
  revert md. induction results as [|e results IH]; intros md; [done |].
  rewrite filter_cons. destruct e as [d|j]; simpl; apply IH.
Qed.

Lemma pick_twice v : pick (tally_counter [v; v]) = v.
Proof. unfold tally_counter. simpl. by rewrite decide_True. Qed.

(** ** The merger *)

(** C1, as amended: on the empty list [merge_results] raises nothing; it
    returns the record in which every text field is ["Unknown"] and both
    lists of side effects are empty. *)
Theorem merge_results_empty_is_unknown `{SetOrder} :
  merge_results [] = Return unknown_result.
Proof.
  rewrite merge_results_returns. unfold consolidated_lens, effects. simpl.
  by rewrite list_of_set_nil.
Qed.

(** C1, as stated, fails: the call on the empty list returns a result, so
    it raises no exception at all. *)
Lemma merge_results_empty_does_not_fail :
  @merge_results last_seen_order [] = Return unknown_result ∧
  ¬ ∃ e, @merge_results last_seen_order [] = Raise e.
Proof. split; [reflexivity |]. intros [e He]. discriminate He. Qed.

(** C2: on a non-empty input, for each lens and text field that some
    entry has, the value returned is supplied by at least as many
    entries as any other value, and any other value supplied by as many
    entries is first supplied by a later entry of the input.  In
    particular an entry naming ["A"] followed by an entry naming ["B"]
    yields ["A"]. *)
Theorem tie_break_first_encountered `{SetOrder} results l f :
  results ≠ [] →
  ∃ r, merge_results results = Return r ∧
    ((∃ e, e ∈ results ∧ has_field l f e) →
     let v := consolidated l f r in
     (∀ u, (support u l f results ≤ support v l f results)%nat) ∧
     (∀ w, w ≠ v →
           support w l f results = support v l f results →
           first_supplied v l f results < first_supplied w l f results)) ∧
    (results = [with_accurate (named "A"); with_accurate (named "B")] →
     c_name (c_accurate r) = "A").
Proof.
  intros _. eexists. split; [apply merge_results_returns |]. split.
  - intros (e & He & [x Hx]). rewrite consolidated_returns.
    assert (Hvs : votes l f results ≠ []).
    { intros Hnil. assert (x ∈ votes l f results) as Hin by (apply votes_elem; eauto).
      rewrite Hnil in Hin. by apply elem_of_nil in Hin. }
    destruct (pick_spec _ Hvs) as (_ & Hmax & Hfirst). split.
    + intros u. rewrite !support_tally. apply Hmax.
    + intros w Hw Htie. rewrite !support_tally in Htie.
      apply first_supplied_votes. by apply Hfirst.
  - by intros ->.
Qed.

(** The theorem at the two entries naming ["A"] and ["B"]. *)
Lemma tie_break_first_encountered_witness :
  [with_accurate (named "A"); with_accurate (named "B")] ≠ [] ∧
  ∃ r, @merge_results last_seen_order
         [with_accurate (named "A"); with_accurate (named "B")] = Return r ∧
       c_name (c_accurate r) = "A".
Proof.
  split; [done |].
  destruct (@tie_break_first_encountered last_seen_order
              [with_accurate (named "A"); with_accurate (named "B")]
              Accurate Name) as (r & Hr & _ & Hex); [done |].
  exists r. split; [exact Hr | by apply Hex].
Defined.

(** C3: on a non-empty input, for each lens and text field, the value
    returned is supplied by at least as many entries as any other value,
    where an entry without the field supplies nothing; entries without
    the field can be dropped without changing the value; and three
    entries with dosages ["500mg"], ["500mg"], ["250mg"] yield
    ["500mg"]. *)
Theorem plurality_of_present_values `{SetOrder} results l f :
  results ≠ [] →
  ∃ r, merge_results results = Return r ∧
    (∀ u, (support u l f results ≤ support (consolidated l f r) l f results)%nat) ∧
    (∀ e, e ∈ results → has_field l f e →
          0 < support (consolidated l f r) l f results) ∧
    (∃ r', merge_results (filter (has_field l f) results) = Return r' ∧
           consolidated l f r' = consolidated l f r) ∧
    (results = [with_accurate (dosed "500mg"); with_accurate (dosed "500mg");
                with_accurate (dosed "250mg")] →
     c_dosage (c_accurate r) = "500mg").
Proof.
  intros _. eexists. split; [apply merge_results_returns |].
  rewrite consolidated_returns. split_and!.
  - intros u. rewrite !support_tally.
    destruct (votes l f results) as [|v vs] eqn:Hvs.
    + unfold tally. simpl. lia.
    + rewrite <- Hvs. by apply pick_spec; rewrite Hvs.
  - intros e He [v Hv]. rewrite support_tally. apply tally_positive.
    apply pick_spec. intros Hnil.
    assert (v ∈ votes l f results) as Hin by (apply votes_elem; eauto).
    rewrite Hnil in Hin. by apply elem_of_nil in Hin.
  - eexists. split; [apply merge_results_returns |].
    by rewrite consolidated_returns, votes_filter_has_field.
  - by intros ->.
Qed.

(** The theorem at the three entries with dosages 500mg, 500mg, 250mg. *)
Lemma plurality_of_present_values_witness :
  [with_accurate (dosed "500mg"); with_accurate (dosed "500mg");
   with_accurate (dosed "250mg")] ≠ [] ∧
  ∃ r, @merge_results last_seen_order
         [with_accurate (dosed "500mg"); with_accurate (dosed "500mg");
          with_accurate (dosed "250mg")] = Return r ∧
       c_dosage (c_accurate r) = "500mg".
Proof.
  split; [done |].
  destruct (@plurality_of_present_values last_seen_order
              [with_accurate (dosed "500mg"); with_accurate (dosed "500mg");
               with_accurate (dosed "250mg")]
              Accurate Dosage) as (r & Hr & _ & _ & _ & Hex); [done |].
  exists r. split; [exact Hr | by apply Hex].
Defined.

(** C4: on every input [merge_results] returns a record, which has all
    four text fields under both lenses; a field that no entry has is
    ["Unknown"]; and for the single empty dictionary every text field is
    ["Unknown"] and both lists of side effects are empty. *)
Theorem absent_field_is_unknown `{SetOrder} results :
  ∃ r, merge_results results = Return r ∧
    (∀ l f, (∀ e, e ∈ results → observed l f e = None) →
            consolidated l f r = "Unknown") ∧
    (results = [Dict empty_dict] → r = unknown_result).
Proof.
  eexists. split; [apply merge_results_returns |]. split.
  - intros l f Hall. rewrite consolidated_returns.
    by rewrite (proj2 (votes_nil_iff l f results) Hall).
  - intros ->. unfold consolidated_lens, effects. simpl.
    by rewrite list_of_set_nil.
Qed.

(** C5: for each lens, the list of side effects returned has no
    duplicates, and a side effect is in it exactly when some entry lists
    it under that lens; entries listing [nausea] and [nausea, rash]
    yield the set of [nausea] and [rash]. *)
Theorem side_effects_are_the_union `{SetOrder} results l :
  ∃ r, merge_results results = Return r ∧
    NoDup (c_side_effects (lens_of l r)) ∧
    (∀ x, x ∈ c_side_effects (lens_of l r) ↔ listed_effect l results x) ∧
    (results = [with_accurate (with_effects ["nausea"]);
                with_accurate (with_effects ["nausea"; "rash"])] →
     list_to_set (c_side_effects (c_accurate r)) =@{gset string}
       {["nausea"; "rash"]}).
Proof.
  eexists. split; [apply merge_results_returns |]. split_and!.
  - destruct l; apply list_of_set_NoDup.
  - intros x. rewrite <- effects_elem. destruct l; apply list_of_set_elem.
  - intros ->. apply set_eq. intros x.
    rewrite elem_of_list_to_set. simpl. rewrite list_of_set_elem.
    unfold effects. simpl. rewrite !elem_of_cons, elem_of_nil.
    rewrite elem_of_union, !elem_of_singleton. tauto.
Qed.

(** C6: merging one dictionary and merging the same dictionary twice
    return the same text fields and the same set of side effects. *)
Theorem merge_results_repeated_element `{SetOrder} (r : ImageResult) :
  ∃ once twice,
    merge_results [Dict r] = Return once ∧
    merge_results [Dict r; Dict r] = Return twice ∧
    same_result once twice.
Proof.
  do 2 eexists. split_and!; [apply merge_results_returns.. |].
  assert (Hv : ∀ l f, pick (tally_counter (votes l f [Dict r])) =
                      pick (tally_counter (votes l f [Dict r; Dict r]))).
  { intros l f. unfold votes. simpl.
    destruct (lens_in l r ≫= field_in f) as [v|]; simpl; [|done].
    by rewrite pick_twice. }
  assert (He : ∀ l, list_of_set (effects l [Dict r]) ≡ₚ
                    list_of_set (effects l [Dict r; Dict r])).
  { intros l. apply list_of_set_perm. intros x. unfold effects. simpl.
    destruct (lens_in l r ≫= fg_side_effects) as [xs|]; simpl; [|done].
    rewrite !app_nil_r, elem_of_app. tauto. }
  split; unfold same_lens, consolidated_lens;
    cbn [c_accurate c_guessed c_name c_dosage c_manufacturer c_usage c_side_effects];
    split_and!; first [apply Hv | apply He].
Qed.

(** C7: on a non-empty input [merge_results] returns, and every text
    field of the result is ["Unknown"] or the value some entry has for
    that field under that lens. *)
Theorem text_fields_come_from_input `{SetOrder} results :
  results ≠ [] →
  ∃ r, merge_results results = Return r ∧
    ∀ l f, consolidated l f r = "Unknown" ∨
           ∃ e, e ∈ results ∧ observed l f e = Some (consolidated l f r).
Proof.
  intros _. eexists. split; [apply merge_results_returns |].
  intros l f. rewrite consolidated_returns.
  destruct (votes l f results) as [|v vs] eqn:Hvs; [by left | right].
  rewrite <- Hvs. apply votes_elem. apply pick_spec. by rewrite Hvs.
Qed.

(** The theorem at an entry naming ["A"] followed by an empty
    dictionary. *)
Lemma text_fields_come_from_input_witness :
  [with_accurate (named "A"); Dict empty_dict] ≠ [] ∧
  ∃ r, @merge_results last_seen_order
         [with_accurate (named "A"); Dict empty_dict] = Return r ∧
    ∀ l f, consolidated l f r = "Unknown" ∨
           ∃ e, e ∈ [with_accurate (named "A"); Dict empty_dict] ∧
                observed l f e = Some (consolidated l f r).
Proof.
  split; [done |].
  apply (@text_fields_come_from_input last_seen_order
           [with_accurate (named "A"); Dict empty_dict]).
  done.
Defined.

(** C10: an entry that is not a dictionary leaves the accumulator as it
    is, so it adds no vote and no side effect and raises nothing: the
    call returns, and returns the same result as on the input with every
    such entry removed. *)
Theorem non_dict_entries_are_skipped `{SetOrder} results :
  (∀ md json, merge_step md (NotDict json) = md) ∧
  (∀ l f, votes l f results = votes l f (filter isinstance_dict results)) ∧
  (∀ l, effects l results = effects l (filter isinstance_dict results)) ∧
  ∃ r, merge_results results = Return r ∧
       merge_results (filter isinstance_dict results) = Return r.
Proof.
  split_and!.
  - done.
  - intros l f. unfold votes. induction results as [|[d|j] results IH]; [done | |].
    + rewrite filter_cons. csimpl. by rewrite IH.
    + rewrite filter_cons. csimpl. by rewrite IH.
  - intros l. unfold effects. induction results as [|[d|j] results IH]; [done | |].
    + rewrite filter_cons. csimpl.
      destruct (lens_in l d ≫= fg_side_effects); csimpl; by rewrite ?IH.
    + rewrite filter_cons. csimpl. by rewrite IH.
  - eexists. split; [apply merge_results_returns |].
    rewrite <- merge_results_returns. unfold merge_results.
    by rewrite merge_loop_not_dict.
Qed.

(** ** The service *)

Lemma collect_returns `{SetOrder} analyze_image files ai_results responses :
  Forall2 (λ img a, analyze_image img = Return a) files ai_results →
  collect analyze_image files responses =
  (CallAnalyze <$> files, Return (responses ++ usable ai_results)).
Proof.
  intros Hall. revert responses.
  induction Hall as [|img a files ai_results Ha Hall IH]; intros responses; simpl.
  - by rewrite app_nil_r.
  - rewrite Ha. unfold usable. rewrite filter_cons.
    destruct (is_failure a); simpl; rewrite IH; [done |].
    by rewrite <- app_assoc.
Qed.

(** X7: an exception of the remote call on one image ends the endpoint
    with that exception: the images after it are not analysed and the
    merger is not called. *)
Lemma identify_medicine_raises `{SetOrder} analyze_image before img after ai_results e :
  Forall2 (λ img a, analyze_image img = Return a) before ai_results →
  analyze_image img = Raise e →
  identify_medicine analyze_image (before ++ img :: after) =
    (CallAnalyze <$> (before ++ [img]), Raise e).
Proof.
  intros Hall He. unfold identify_medicine.
  assert (Hc : ∀ responses,
    collect analyze_image (before ++ img :: after) responses =
      (CallAnalyze <$> (before ++ [img]), Raise e)).
  { induction Hall as [|img' a before ai_results Ha Hall IH]; intros responses; simpl.
    - by rewrite He.
    - rewrite Ha. by rewrite IH. }
  by rewrite Hc.
Qed.

(** C8: when every image gets an answer from the model, the endpoint
    keeps the answers that are not failure markers; when none is left it
    returns the error object without calling the merger, and otherwise
    it calls the merger once, on the answers kept, and returns its
    result under ["medicine"]. *)
Theorem identify_medicine_contract `{SetOrder} analyze_image files ai_results :
  Forall2 (λ img a, analyze_image img = Return a) files ai_results →
  (usable ai_results = [] →
     identify_medicine analyze_image files =
       (CallAnalyze <$> files,
        Return (ErrorResponse "Failed to identify medicine from provided images")) ∧
     Forall (λ c, ¬ is_merge_call c) (identify_medicine analyze_image files).1) ∧
  (usable ai_results ≠ [] →
     ∃ r, merge_results (usable ai_results) = Return r ∧
       identify_medicine analyze_image files =
         ((CallAnalyze <$> files) ++ [CallMerge (usable ai_results)],
          Return (MedicineResponse r))).
Proof.
  intros Hall. unfold identify_medicine.
  rewrite (collect_returns _ _ _ _ Hall). simpl. split.
  - intros ->. split; [done |]. simpl.
    apply Forall_fmap, Forall_true. intros img []. 
  - intros Hne. destruct (usable ai_results) as [|a responses] eqn:Hu; [done |].
    eexists. split; [apply merge_results_returns |].
    by rewrite merge_results_returns.
Qed.

(** The theorem at a batch of an unreadable image and a readable one. *)
Lemma identify_medicine_contract_witness :
  Forall2 (λ img a, sample_model img = Return a)
    [[]; ["A"%byte]] [invalid_response; with_accurate (named "A")] ∧
  ∃ r, @merge_results last_seen_order [with_accurate (named "A")] = Return r ∧
    @identify_medicine last_seen_order sample_model [[]; ["A"%byte]] =
      ([CallAnalyze []; CallAnalyze ["A"%byte];
        CallMerge [with_accurate (named "A")]],
       Return (MedicineResponse r)).
Proof.
  assert (Hall : Forall2 (λ img a, sample_model img = Return a)
    [[]; ["A"%byte]] [invalid_response; with_accurate (named "A")]).
  { repeat constructor. }
  split; [exact Hall |].
  destruct (@identify_medicine_contract last_seen_order sample_model _ _ Hall)
    as [_ Hsome].
  apply Hsome. discriminate.
Defined.

(** ** The store model *)

Section store_model.

Lemma run_bind {A B} (m : Heap.heapM A) (k : A → Heap.heapM B) σ a σ' :
  m σ = Return (a, σ') → (m ≫= k) σ = k a σ'.
Proof. intros Hm. unfold mbind, Heap.heapM_bind. by rewrite Hm. Qed.

Lemma load_run (σ : Heap.store) l o : σ !! l = Some o → Heap.load l σ = Return (o, σ).
Proof. intros Hl. unfold Heap.load. by rewrite Hl. Qed.

Lemma load_counter_run (σ : Heap.store) l c :
  σ !! l = Some (Heap.ObjCounter c) → Heap.load_counter l σ = Return (c, σ).
Proof. intros Hl. unfold Heap.load_counter. by rewrite (run_bind _ _ _ _ _ (load_run _ _ _ Hl)). Qed.

Lemma load_list_run (σ : Heap.store) l xs :
  σ !! l = Some (Heap.ObjList xs) → Heap.load_list l σ = Return (xs, σ).
Proof. intros Hl. unfold Heap.load_list. by rewrite (run_bind _ _ _ _ _ (load_run _ _ _ Hl)). Qed.

Lemma counter_incr_run (σ : Heap.store) l c k :
  σ !! l = Some (Heap.ObjCounter c) →
  Heap.counter_incr l k σ = Return ((), <[l := Heap.ObjCounter (incr k c)]> σ).
Proof.
  intros Hl. unfold Heap.counter_incr.
  by rewrite (run_bind _ _ _ _ _ (load_counter_run _ _ _ Hl)).
Qed.

Lemma list_extend_run (σ : Heap.store) target source xs ys :
  σ !! source = Some (Heap.ObjList xs) →
  σ !! target = Some (Heap.ObjList ys) →
  Heap.list_extend target source σ = Return ((), <[target := Heap.ObjList (ys ++ xs)]> σ).
Proof.
  intros Hs Ht. unfold Heap.list_extend.
  rewrite (run_bind _ _ _ _ _ (load_list_run _ _ _ Hs)).
  by rewrite (run_bind _ _ _ _ _ (load_list_run _ _ _ Ht)).
Qed.

Lemma alloc_run (σ : Heap.store) o :
  Heap.alloc o σ = Return (fresh (dom σ), <[fresh (dom σ) := o]> σ) ∧
  σ !! fresh (dom σ) = None.
Proof. split; [done |]. apply not_elem_of_dom, is_fresh. Qed.

Lemma on_lens_compose l f g md :
  on_lens l f (on_lens l g md) = on_lens l (λ m, f (g m)) md.
Proof. by destruct l. Qed.

Lemma on_lens_id l md : on_lens l (λ m, m) md = md.
Proof. by destruct l, md. Qed.

Lemma content_count_field l f v md :
  content (on_lens l (count_field f v) md) l (CounterSlot f) =
  Heap.ObjCounter (incr v (counter_of l f md)).
Proof. by destruct l, f. Qed.

Lemma content_count_field_other l f v md l' s' :
  (l', s') ≠ (l, CounterSlot f) →
  content (on_lens l (count_field f v) md) l' s' = content md l' s'.
Proof. destruct l, f, l', s' as [[]|]; intros Hne; done. Qed.

Lemma content_extend l xs md :
  content (on_lens l (extend_side_effects xs) md) l EffectsSlot =
  Heap.ObjList (effects_of l md ++ xs).
Proof. by destruct l. Qed.

Lemma content_extend_other l xs md l' s' :
  (l', s') ≠ (l, EffectsSlot) →
  content (on_lens l (extend_side_effects xs) md) l' s' = content md l' s'.
Proof. destruct l, l', s' as [[]|]; intros Hne; done. Qed.

(** Writing a slot of [merged_data] keeps the invariant, for the
    accumulator that differs in that slot only. *)
Lemma merged_inv_write σ0 σ ma mg md md' l0 s0 :
  merged_fresh σ0 ma mg →
  merged_inv σ0 σ ma mg md →
  (∀ l s, (l, s) ≠ (l0, s0) → content md' l s = content md l s) →
  merged_inv σ0 (<[ref_of (refs_of ma mg l0) s0 := content md' l0 s0]> σ) ma mg md'.
Proof.
  intros [Hnew Hdist] [Hframe Hholds] Hother. split.
  - by apply insert_subseteq_r.
  - intros l s. destruct (decide ((l, s) = (l0, s0))) as [[= -> ->]|Hne].
    + by rewrite lookup_insert_eq.
    + rewrite lookup_insert_ne, Hother; [done.. |].
      intros [-> ->]%Hdist. done.
Qed.

Lemma counter_incr_inv σ0 σ ma mg md l f v :
  merged_fresh σ0 ma mg →
  merged_inv σ0 σ ma mg md →
  ∃ σ', Heap.counter_incr (ref_of (refs_of ma mg l) (CounterSlot f)) v σ = Return ((), σ') ∧
        merged_inv σ0 σ' ma mg (on_lens l (count_field f v) md).
Proof.
  intros Hfresh Hinv. eexists. split.
  - apply counter_incr_run. apply (inv_holds _ _ _ _ _ Hinv l (CounterSlot f)).
  - rewrite <- content_count_field.
    apply (merged_inv_write _ _ _ _ md); [done.. |].
    intros l' s' Hne. by apply content_count_field_other.
Qed.

Lemma list_extend_inv σ0 σ ma mg md l source xs :
  merged_fresh σ0 ma mg →
  merged_inv σ0 σ ma mg md →
  σ0 !! source = Some (Heap.ObjList xs) →
  ∃ σ', Heap.list_extend (ref_of (refs_of ma mg l) EffectsSlot) source σ = Return ((), σ') ∧
        merged_inv σ0 σ' ma mg (on_lens l (extend_side_effects xs) md).
Proof.
  intros Hfresh Hinv Hsrc. eexists. split.
  - apply list_extend_run.
    + eapply lookup_weaken; [exact Hsrc | apply Hinv].
    + apply (inv_holds _ _ _ _ _ Hinv l EffectsSlot).
  - rewrite <- content_extend.
    apply (merged_inv_write _ _ _ _ md); [done.. |].
    intros l' s' Hne. by apply content_extend_other.
Qed.

Lemma when_counter_inv σ0 σ ma mg md l f (o : option string) :
  merged_fresh σ0 ma mg →
  merged_inv σ0 σ ma mg md →
  ∃ σ', Heap.when_in o (Heap.counter_incr (ref_of (refs_of ma mg l) (CounterSlot f))) σ
          = Return ((), σ') ∧
        merged_inv σ0 σ' ma mg (on_lens l (if_in o (count_field f)) md).
Proof.
  intros Hfresh Hinv. destruct o as [v|]; simpl.
  - by apply counter_incr_inv.
  - exists σ. split; [done |]. by rewrite on_lens_id.
Qed.

Lemma when_effects_inv σ0 σ ma mg md l (o : option Heap.loc) oxs :
  merged_fresh σ0 ma mg →
  merged_inv σ0 σ ma mg md →
  Heap.effects_at σ0 o = Some oxs →
  ∃ σ', Heap.when_in o (Heap.list_extend (ref_of (refs_of ma mg l) EffectsSlot)) σ
          = Return ((), σ') ∧
        merged_inv σ0 σ' ma mg (on_lens l (if_in oxs extend_side_effects) md).
Proof.
  intros Hfresh Hinv Hat. destruct o as [source|]; simpl in *.
  - destruct (σ0 !! source) as [[xs| | | |]|] eqn:Hsrc; simplify_eq.
    by apply list_extend_inv.
  - simplify_eq. exists σ. split; [done |]. by rewrite on_lens_id.
Qed.

(** The five statements under one lens do to the objects of
    [merged_data] what [merge_lens] does to the accumulator. *)
Lemma merge_lens_inv σ0 σ ma mg md l data g :
  merged_fresh σ0 ma mg →
  merged_inv σ0 σ ma mg md →
  Heap.lens_at σ0 (Some data) = Some (Some g) →
  ∃ σ', Heap.merge_lens data (refs_of ma mg l) σ = Return ((), σ') ∧
        merged_inv σ0 σ' ma mg (on_lens l (merge_lens g) md).
Proof.
  intros Hfresh Hinv Hat. simpl in Hat.
  destruct (σ0 !! data) as [[|name dosage side manufacturer usage| | |]|] eqn:Hdata;
    try done.
  destruct (Heap.effects_at σ0 side) as [oxs|] eqn:Hside; simplify_eq/=.
  destruct (when_counter_inv _ _ _ _ _ l Name name Hfresh Hinv) as (σ1 & H1 & Hinv1).
  destruct (when_counter_inv _ _ _ _ _ l Dosage dosage Hfresh Hinv1) as (σ2 & H2 & Hinv2).
  destruct (when_effects_inv _ _ _ _ _ l side oxs Hfresh Hinv2 Hside) as (σ3 & H3 & Hinv3).
  destruct (when_counter_inv _ _ _ _ _ l Manufacturer manufacturer Hfresh Hinv3)
    as (σ4 & H4 & Hinv4).
  destruct (when_counter_inv _ _ _ _ _ l Usage usage Hfresh Hinv4) as (σ5 & H5 & Hinv5).
  exists σ5. split.
  - unfold Heap.merge_lens.
    rewrite (run_bind _ _ _ _ _ (load_run _ _ _ (lookup_weaken _ _ _ _ Hdata (inv_frame _ _ _ _ _ Hinv)))).
    rewrite (run_bind _ _ _ _ _ H1), (run_bind _ _ _ _ _ H2).
    rewrite (run_bind _ _ _ _ _ H3), (run_bind _ _ _ _ _ H4). exact H5.
  - by rewrite !on_lens_compose in Hinv5.
Qed.

Lemma when_lens_inv σ0 σ ma mg md l (o : option Heap.loc) og :
  merged_fresh σ0 ma mg →
  merged_inv σ0 σ ma mg md →
  Heap.lens_at σ0 o = Some og →
  ∃ σ', Heap.when_in o (λ data, Heap.merge_lens data (refs_of ma mg l)) σ = Return ((), σ') ∧
        merged_inv σ0 σ' ma mg (if_in og (λ g, on_lens l (merge_lens g)) md).
Proof.
  intros Hfresh Hinv Hat. destruct o as [data|].
  - destruct og as [g|].
    + by apply merge_lens_inv.
    + simpl in Hat. by repeat case_match; simplify_option_eq.
  - simpl in Hat. simplify_eq. by exists σ.
Qed.

(** One round of the loop. *)
Lemma merge_step_inv σ0 σ ma mg md it e :
  merged_fresh σ0 ma mg →
  merged_inv σ0 σ ma mg md →
  Heap.entry_at σ0 it = Some e →
  ∃ σ', Heap.merge_step ma mg it σ = Return ((), σ') ∧
        merged_inv σ0 σ' ma mg (merge_step md e).
Proof.
  intros Hfresh Hinv Hat. destruct it as [l|json]; simpl in Hat.
  - destruct (σ0 !! l) as [[| |a g err| |]|] eqn:Hl; try done.
    destruct (Heap.lens_at σ0 a) as [oa|] eqn:Ha; [|done].
    destruct (Heap.lens_at σ0 g) as [og|] eqn:Hg; [|done].
    simplify_eq/=.
    destruct (when_lens_inv _ _ _ _ _ Accurate a oa Hfresh Hinv Ha) as (σ1 & H1 & Hinv1).
    destruct (when_lens_inv _ _ _ _ _ Guessed g og Hfresh Hinv1 Hg) as (σ2 & H2 & Hinv2).
    exists σ2. split.
    + rewrite (run_bind _ _ _ _ _ (load_run _ _ _ (lookup_weaken _ _ _ _ Hl (inv_frame _ _ _ _ _ Hinv)))).
      simpl in H1, H2. rewrite (run_bind _ _ _ _ _ H1). exact H2.
    + by destruct oa, og.
  - simplify_eq. by exists σ.
Qed.

(** The whole loop. *)
Lemma for_each_inv σ0 σ ma mg md items results :
  merged_fresh σ0 ma mg →
  merged_inv σ0 σ ma mg md →
  mapM (Heap.entry_at σ0) items = Some results →
  ∃ σ', Heap.for_each (Heap.merge_step ma mg) items σ = Return ((), σ') ∧
        merged_inv σ0 σ' ma mg (foldl merge_step md results).
Proof.
  intros Hfresh Hinv Hall. apply mapM_Some in Hall.
  revert σ md Hinv. induction Hall as [|it e items results He Hall IH]; intros σ md Hinv.
  - by exists σ.
  - destruct (merge_step_inv _ _ _ _ _ it e Hfresh Hinv He) as (σ1 & H1 & Hinv1).
    destruct (IH _ _ Hinv1) as (σ2 & H2 & Hinv2).
    exists σ2. split; [|done]. simpl. by rewrite (run_bind _ _ _ _ _ H1).
Qed.

Lemma content_init l s :
  content merged_data_init l s = content merged_data_init Accurate s.
Proof. by destruct l, s as [[]|]. Qed.

(** The dictionary literal makes five new, distinct objects and leaves
    every other object alone. *)
Lemma new_merged_run (σ : Heap.store) :
  ∃ m σ', Heap.new_merged σ = Return (m, σ') ∧
    σ ⊆ σ' ∧
    (∀ s, σ !! ref_of m s = None) ∧
    (∀ s, σ' !! ref_of m s = Some (content merged_data_init Accurate s)) ∧
    (∀ s s', ref_of m s = ref_of m s' → s = s').
Proof.
  eexists _, _. split; [reflexivity |].
  pose proof (is_fresh (dom σ)) as F1.
  set (l1 := fresh (dom σ)) in *.
  set (σ1 := <[l1 := Heap.ObjCounter []]> σ).
  pose proof (is_fresh (dom σ1)) as F2.
  set (l2 := fresh (dom σ1)) in *.
  set (σ2 := <[l2 := Heap.ObjCounter []]> σ1).
  pose proof (is_fresh (dom σ2)) as F3.
  set (l3 := fresh (dom σ2)) in *.
  set (σ3 := <[l3 := Heap.ObjList []]> σ2).
  pose proof (is_fresh (dom σ3)) as F4.
  set (l4 := fresh (dom σ3)) in *.
  set (σ4 := <[l4 := Heap.ObjCounter []]> σ3).
  pose proof (is_fresh (dom σ4)) as F5.
  set (l5 := fresh (dom σ4)) in *.
  unfold σ4 in F5. rewrite dom_insert_L in F5.
  unfold σ3 in F4, F5. rewrite dom_insert_L in F4, F5.
  unfold σ2 in F3, F4, F5. rewrite dom_insert_L in F3, F4, F5.
  unfold σ1 in F2, F3, F4, F5. rewrite dom_insert_L in F2, F3, F4, F5.
  apply not_elem_of_union in F2 as [N21%not_elem_of_singleton F2].
  apply not_elem_of_union in F3 as [N32%not_elem_of_singleton
    [N31%not_elem_of_singleton F3]%not_elem_of_union].
  apply not_elem_of_union in F4 as [N43%not_elem_of_singleton
    [N42%not_elem_of_singleton
       [N41%not_elem_of_singleton F4]%not_elem_of_union]%not_elem_of_union].
  apply not_elem_of_union in F5 as [N54%not_elem_of_singleton
    [N53%not_elem_of_singleton
       [N52%not_elem_of_singleton
          [N51%not_elem_of_singleton F5]%not_elem_of_union]%not_elem_of_union]%not_elem_of_union].
  apply not_elem_of_dom in F1, F2, F3, F4, F5.
  split_and!.
  - do 5 (apply insert_subseteq_r; [done |]). done.
  - intros [[]|]; done.
  - intros [[]|]; cbn [ref_of Heap.r_name Heap.r_dosage Heap.r_side_effects
                        Heap.r_manufacturer Heap.r_usage];
      unfold σ4, σ3, σ2, σ1; by simplify_map_eq.
  - intros [[]|] [[]|]; cbn [ref_of Heap.r_name Heap.r_dosage Heap.r_side_effects
                        Heap.r_manufacturer Heap.r_usage]; congruence.
Qed.

(** After both dictionary literals the invariant holds for the empty
    accumulator. *)
Lemma merged_data_run (σ : Heap.store) :
  ∃ ma mg σa σ',
    Heap.new_merged σ = Return (ma, σa) ∧
    Heap.new_merged σa = Return (mg, σ') ∧
    merged_fresh σ ma mg ∧
    merged_inv σ σ' ma mg merged_data_init.
Proof.
  destruct (new_merged_run σ) as (ma & σa & Ha & Hsub_a & Hnew_a & Hat_a & Hinj_a).
  destruct (new_merged_run σa) as (mg & σ' & Hg & Hsub_g & Hnew_g & Hat_g & Hinj_g).
  exists ma, mg, σa, σ'. split_and!; [done | done | |].
  - split.
    + intros [] s; simpl; [done |].
      destruct (σ !! ref_of mg s) as [o|] eqn:Ho; [|done].
      apply (lookup_weaken _ _ _ _ Ho) in Hsub_a. by rewrite Hnew_g in Hsub_a.
    + intros [] s [] s' Heq; simpl in Heq.
      * split; [done | by apply Hinj_a].
      * pose proof (Hat_a s) as Hs. rewrite Heq, Hnew_g in Hs. done.
      * pose proof (Hat_a s') as Hs. rewrite <- Heq, Hnew_g in Hs. done.
      * split; [done | by apply Hinj_g].
  - split; [by etrans |].
    intros l s. rewrite (content_init l s). destruct l; simpl; [|done].
    eapply lookup_weaken; [apply Hat_a | done].
Qed.

Lemma most_common_run `{SetOrder} (σ : Heap.store) l c :
  σ !! l = Some (Heap.ObjCounter c) → Heap.most_common l σ = Return (pick c, σ).
Proof.
  intros Hl. unfold Heap.most_common.
  rewrite (run_bind _ _ _ _ _ (load_counter_run _ _ _ Hl)).
  by rewrite most_common_or_unknown_pick.
Qed.

Lemma consolidate_lens_pick `{SetOrder} m :
  consolidate_lens m =
  Return {| c_name := pick (m_name m); c_dosage := pick (m_dosage m);
            c_side_effects := list_of_set (m_side_effects m);
            c_manufacturer := pick (m_manufacturer m);
            c_usage := pick (m_usage m) |}.
Proof. unfold consolidate_lens. by rewrite !most_common_or_unknown_pick. Qed.

(** Building one lens of the result reads the objects of [merged_data]
    and makes one new list. *)
Lemma consolidate_lens_run `{SetOrder} (σ : Heap.store) m md l :
  (∀ s, σ !! ref_of m s = Some (content md l s)) →
  ∃ out σ' c,
    Heap.consolidate_lens m σ = Return (out, σ') ∧
    σ ⊆ σ' ∧
    σ !! Heap.o_side_effects out = None ∧
    Heap.output_lens_at σ' out = Some c ∧
    consolidate_lens (match l with Accurate => m_accurate md | Guessed => m_guessed md end)
      = Return c.
Proof.
  intros Hat.
  pose proof (Hat (CounterSlot Name)) as Hname.
  pose proof (Hat (CounterSlot Dosage)) as Hdosage.
  pose proof (Hat EffectsSlot) as Heffects.
  pose proof (Hat (CounterSlot Manufacturer)) as Hmanufacturer.
  pose proof (Hat (CounterSlot Usage)) as Husage.
  simpl in *.
  destruct (alloc_run σ (Heap.ObjList (list_of_set (effects_of l md)))) as [Halloc Hnew].
  assert (Hsub : σ ⊆ <[fresh (dom σ) := Heap.ObjList (list_of_set (effects_of l md))]> σ)
    by (by apply insert_subseteq).
  eexists _, _, _. split_and!.
  - unfold Heap.consolidate_lens.
    rewrite (run_bind _ _ _ _ _ (most_common_run _ _ _ Hname)).
    rewrite (run_bind _ _ _ _ _ (most_common_run _ _ _ Hdosage)).
    rewrite (run_bind _ _ _ _ _ (load_list_run _ _ _ Heffects)).
    rewrite (run_bind _ _ _ _ _ Halloc).
    rewrite (run_bind _ _ _ _ _
               (most_common_run _ _ _ (lookup_weaken _ _ _ _ Hmanufacturer Hsub))).
    rewrite (run_bind _ _ _ _ _
               (most_common_run _ _ _ (lookup_weaken _ _ _ _ Husage Hsub))).
    reflexivity.
  - exact Hsub.
  - exact Hnew.
  - unfold Heap.output_lens_at. simpl. by rewrite lookup_insert_eq.
  - rewrite consolidate_lens_pick. by destruct l.
Qed.

(** Reading the input back does not depend on objects added later. *)
Lemma effects_at_weaken (σ σ' : Heap.store) o r :
  σ ⊆ σ' → Heap.effects_at σ o = Some r → Heap.effects_at σ' o = Some r.
Proof.
  intros Hsub. destruct o as [l|]; simpl; [|done].
  destruct (σ !! l) as [[xs| | | |]|] eqn:Hl; try done.
  by rewrite (lookup_weaken _ _ _ _ Hl Hsub).
Qed.

Lemma lens_at_weaken (σ σ' : Heap.store) o r :
  σ ⊆ σ' → Heap.lens_at σ o = Some r → Heap.lens_at σ' o = Some r.
Proof.
  intros Hsub. destruct o as [l|]; simpl; [|done].
  destruct (σ !! l) as [[|name dosage side manufacturer usage| | |]|] eqn:Hl; try done.
  rewrite (lookup_weaken _ _ _ _ Hl Hsub).
  destruct (Heap.effects_at σ side) as [oxs|] eqn:Hside; [|done].
  by rewrite (effects_at_weaken _ _ _ _ Hsub Hside).
Qed.

Lemma entry_at_weaken (σ σ' : Heap.store) it e :
  σ ⊆ σ' → Heap.entry_at σ it = Some e → Heap.entry_at σ' it = Some e.
Proof.
  intros Hsub. destruct it as [l|json]; simpl; [|done].
  destruct (σ !! l) as [[| |a g err| |]|] eqn:Hl; try done.
  rewrite (lookup_weaken _ _ _ _ Hl Hsub).
  destruct (Heap.lens_at σ a) as [oa|] eqn:Ha; [|done].
  destruct (Heap.lens_at σ g) as [og|] eqn:Hg; [|done].
  by rewrite (lens_at_weaken _ _ _ _ Hsub Ha), (lens_at_weaken _ _ _ _ Hsub Hg).
Qed.

Lemma input_at_weaken (σ σ' : Heap.store) results rs :
  σ ⊆ σ' → Heap.input_at σ results = Some rs → Heap.input_at σ' results = Some rs.
Proof.
  intros Hsub. unfold Heap.input_at.
  destruct (σ !! results) as [[| | |items|]|] eqn:Hl; try done.
  rewrite (lookup_weaken _ _ _ _ Hl Hsub). rewrite !mapM_Some.
  intros Hall. eapply Forall2_impl; [exact Hall |].
  intros it e. by apply entry_at_weaken.
Qed.

(** A call on a store that holds an input of the data model returns;
    every object of the store is afterwards as it was before; the lists
    of the result are new objects; and the result is the one the
    function on values computes. *)
Lemma merge_results_run `{SetOrder} (σ : Heap.store) results rs :
  Heap.input_at σ results = Some rs →
  ∃ out σ' r,
    Heap.merge_results results σ = Return (out, σ') ∧
    σ ⊆ σ' ∧
    σ !! Heap.o_side_effects (Heap.o_accurate out) = None ∧
    σ !! Heap.o_side_effects (Heap.o_guessed out) = None ∧
    Heap.output_at σ' out = Some r ∧
    merge_results rs = Return r.
Proof.
  intros Hin. unfold Heap.input_at in Hin.
  destruct (σ !! results) as [[| | |items|]|] eqn:Hl; try done.
  destruct (merged_data_run σ) as (ma & mg & σa & σb & Ha & Hg & Hfresh & Hinv).
  destruct (for_each_inv _ _ _ _ _ _ _ Hfresh Hinv Hin) as (σc & Hloop & Hinv').
  set (md := foldl merge_step merged_data_init rs) in *.
  destruct (consolidate_lens_run σc ma md Accurate
              (λ s, inv_holds _ _ _ _ _ Hinv' Accurate s))
    as (oa & σd & ca & Hca & Hsub_d & Hnew_a & Hout_a & Hpure_a).
  assert (Hat_g : ∀ s, σd !! ref_of mg s = Some (content md Guessed s)).
  { intros s. eapply lookup_weaken; [|exact Hsub_d].
    apply (inv_holds _ _ _ _ _ Hinv' Guessed s). }
  destruct (consolidate_lens_run σd mg md Guessed Hat_g)
    as (og & σe & cg & Hcg & Hsub_e & Hnew_g & Hout_g & Hpure_g).
  pose proof (inv_frame _ _ _ _ _ Hinv') as Hframe.
  exists {| Heap.o_accurate := oa; Heap.o_guessed := og |}, σe,
         {| c_accurate := ca; c_guessed := cg |}.
  split_and!.
  - unfold Heap.merge_results.
    rewrite (run_bind _ _ _ _ _ Ha), (run_bind _ _ _ _ _ Hg).
    rewrite (run_bind _ _ _ _ _
               (load_run _ _ _ (lookup_weaken _ _ _ _ Hl (inv_frame _ _ _ _ _ Hinv)))).
    rewrite (run_bind _ _ _ _ _ Hloop), (run_bind _ _ _ _ _ Hca).
    by rewrite (run_bind _ _ _ _ _ Hcg).
  - by do 2 etrans.
  - simpl. destruct (σ !! Heap.o_side_effects oa) as [o|] eqn:Ho; [|done].
    apply (lookup_weaken _ _ _ _ Ho) in Hframe. by rewrite Hnew_a in Hframe.
  - simpl. destruct (σ !! Heap.o_side_effects og) as [o|] eqn:Ho; [|done].
    assert (σ ⊆ σd) as Hsub by (by etrans).
    apply (lookup_weaken _ _ _ _ Ho) in Hsub. by rewrite Hnew_g in Hsub.
  - unfold Heap.output_at. simpl. rewrite Hout_g.
    unfold Heap.output_lens_at in Hout_a |- *.
    destruct (σd !! Heap.o_side_effects oa) as [[xs| | | |]|] eqn:Hxs; try done.
    rewrite (lookup_weaken _ _ _ _ Hxs Hsub_e). by simplify_eq/=.
  - unfold merge_results. fold md. by rewrite Hpure_a, Hpure_g.
Qed.

End store_model.

(** The text fields do not depend on the order in which a set is
    listed, and the side effects depend on it only in their order. *)
Lemma merge_results_any_order (O1 O2 : SetOrder) results :
  ∃ r1 r2,
    @merge_results O1 results = Return r1 ∧
    @merge_results O2 results = Return r2 ∧
    same_result r1 r2.
Proof.
  do 2 eexists. split_and!; [apply merge_results_returns.. |].
  split; unfold same_lens, consolidated_lens;
    cbn [c_accurate c_guessed c_name c_dosage c_manufacturer c_usage c_side_effects];
    split_and!; try done; by apply list_of_set_perm.
Qed.

(** C9: a call of [merge_results] on a store that holds the input
    [rs] returns and leaves every object of the store as it was, so the
    list of results and every dictionary and list it refers to still hold
    [rs]; its result is the one computed from [rs] alone; and any other
    call on an input equal to [rs], in any store (the one this call
    leaves behind included) and under any order of listing a set,
    returns the same text fields and the same sets of side effects. *)
Theorem merge_results_is_pure (O1 O2 : SetOrder) (σ : Heap.store) results rs :
  Heap.input_at σ results = Some rs →
  ∃ out1 σ1 r1,
    @Heap.merge_results O1 results σ = Return (out1, σ1) ∧
    (∀ l o, σ !! l = Some o → σ1 !! l = Some o) ∧
    Heap.input_at σ1 results = Some rs ∧
    Heap.output_at σ1 out1 = Some r1 ∧
    @merge_results O1 rs = Return r1 ∧
    ∀ (σ' : Heap.store) results',
      Heap.input_at σ' results' = Some rs →
      ∃ out2 σ2 r2,
        @Heap.merge_results O2 results' σ' = Return (out2, σ2) ∧
        Heap.output_at σ2 out2 = Some r2 ∧
        same_result r1 r2.
Proof.
  intros Hin.
  destruct (@merge_results_run O1 σ results rs Hin)
    as (out1 & σ1 & r1 & Hrun1 & Hsub1 & _ & _ & Hout1 & Hpure1).
  exists out1, σ1, r1. split_and!; try done.
  - intros l o Hl. by eapply lookup_weaken.
  - by eapply input_at_weaken.
  - intros σ' results' Hin'.
    destruct (@merge_results_run O2 σ' results' rs Hin')
      as (out2 & σ2 & r2 & Hrun2 & _ & _ & _ & Hout2 & Hpure2).
    exists out2, σ2, r2. split_and!; try done.
    destruct (merge_results_any_order O1 O2 rs) as (r1' & r2' & H1 & H2 & Hsame).
    rewrite Hpure1 in H1. rewrite Hpure2 in H2. by simplify_eq.
Qed.

(** The theorem at the sample store, whose list of results refers to
    the same dictionary twice; the second call runs in the store the
    first one leaves behind. *)
Lemma merge_results_is_pure_witness :
  Heap.input_at Heap.sample_store 3 = Some Heap.sample_input ∧
  ∃ out1 σ1 r1,
    @Heap.merge_results last_seen_order 3 Heap.sample_store = Return (out1, σ1) ∧
    (∀ l o, Heap.sample_store !! l = Some o → σ1 !! l = Some o) ∧
    Heap.input_at σ1 3 = Some Heap.sample_input ∧
    Heap.output_at σ1 out1 = Some r1 ∧
    ∃ out2 σ2 r2,
      @Heap.merge_results gset_order 3 σ1 = Return (out2, σ2) ∧
      Heap.output_at σ2 out2 = Some r2 ∧
      same_result r1 r2.
Proof.
  assert (Hin : Heap.input_at Heap.sample_store 3 = Some Heap.sample_input)
    by reflexivity.
  split; [exact Hin |].
  destruct (merge_results_is_pure last_seen_order gset_order _ _ _ Hin)
    as (out1 & σ1 & r1 & Hrun & Hframe & Hin1 & Hout & _ & Hagain).
  exists out1, σ1, r1. split_and!; try done.
  by apply Hagain.
Defined.

(** ** Cleaning the answer of the model *)

Section cleaning_facts.
Variable isspace : char → bool.

Local Abbreviation all_space := (Forall (λ c, isspace c = true)).

Lemma lstrip_split s : ∃ l, s = l ++ lstrip isspace s ∧ all_space l.
Proof.
  induction s as [|c s (l & Hs & Hl)]; simpl.
  - by exists [].
  - destruct (isspace c) eqn:Hc.
    + exists (c :: l). split; [by rewrite Hs at 1 | by constructor].
    + by exists [].
Qed.

Lemma rstrip_split s : ∃ r, s = rstrip isspace s ++ r ∧ all_space r.
Proof.
  induction s as [|c s (r & Hs & Hr)]; simpl.
  - by exists [].
  - destruct (rstrip isspace s) as [|x xs] eqn:Hx.
    + destruct (isspace c) eqn:Hc.
      * exists (c :: r). simpl in Hs. split; [by rewrite Hs at 1 | by constructor].
      * exists r. split; [by rewrite Hs at 1 | done].
    + exists r. split; [by rewrite Hs at 1 | done].
Qed.

Lemma lstrip_head s c : head (lstrip isspace s) = Some c → isspace c = false.
Proof.
  induction s as [|x s IH]; simpl; [done |].
  destruct (isspace x) eqn:Hx; [done |]. simpl. by intros [= <-].
Qed.

Lemma rstrip_last s c : last (rstrip isspace s) = Some c → isspace c = false.
Proof.
  revert c. induction s as [|x s IH]; intros c; simpl; [done |].
  destruct (rstrip isspace s) as [|y ys] eqn:Hy.
  - destruct (isspace x) eqn:Hx; [done |]. simpl. by intros [= <-].
  - rewrite last_cons. destruct (last (y :: ys)) as [z|] eqn:Hz.
    + intros [= <-]. by apply IH.
    + by apply last_None in Hz.
Qed.

Lemma rstrip_head s c : head (rstrip isspace s) = Some c → head s = Some c.
Proof.
  destruct s as [|x s]; simpl; [done |].
  destruct (rstrip isspace s); [|done]. by destruct (isspace x).
Qed.

Lemma lstrip_all_space s : all_space s → lstrip isspace s = [].
Proof. induction 1 as [|c s Hc Hs IH]; simpl; [done |]. by rewrite Hc. Qed.

Lemma rstrip_all_space s : all_space s → rstrip isspace s = [].
Proof. induction 1 as [|c s Hc Hs IH]; simpl; [done |]. by rewrite IH, Hc. Qed.

Lemma lstrip_id s :
  (∀ c, head s = Some c → isspace c = false) → lstrip isspace s = s.
Proof. destruct s as [|c s]; simpl; [done |]. intros Hc. by rewrite (Hc c). Qed.

Lemma rstrip_id s :
  (∀ c, last s = Some c → isspace c = false) → rstrip isspace s = s.
Proof.
  induction s as [|x s IH]; simpl; [done |]. intros Hlast.
  destruct s as [|y s].
  - simpl. by rewrite (Hlast x).
  - rewrite IH; [done |]. intros c Hc. apply Hlast. by rewrite last_cons, Hc.
Qed.

Lemma rstrip_app_space s ws :
  all_space ws → rstrip isspace (s ++ ws) = rstrip isspace s.
Proof.
  intros Hws. induction s as [|c s IH]; simpl.
  - by apply rstrip_all_space.
  - by rewrite IH.
Qed.

Lemma lstrip_space_app ws s :
  all_space ws → lstrip isspace (ws ++ s) = lstrip isspace s.
Proof. induction 1 as [|c ws Hc Hws IH]; simpl; [done |]. by rewrite Hc. Qed.

(** What [strip] returns neither starts nor ends with whitespace. *)
Lemma strip_trimmed s : trimmed isspace (strip isspace s).
Proof.
  unfold strip. split.
  - intros c Hc. apply rstrip_head in Hc. by eapply lstrip_head.
  - apply rstrip_last.
Qed.

Lemma strip_id s : trimmed isspace s → strip isspace s = s.
Proof. intros [Hh Hl]. unfold strip. by rewrite lstrip_id, rstrip_id. Qed.

(** [strip] removes whitespace at both ends and nothing else. *)
Lemma strip_split s :
  ∃ l r, s = l ++ strip isspace s ++ r ∧ all_space l ∧ all_space r.
Proof.
  destruct (lstrip_split s) as (l & Hs & Hl).
  destruct (rstrip_split (lstrip isspace s)) as (r & Hs' & Hr).
  exists l, r. unfold strip. by rewrite <- Hs'.
Qed.

Lemma strip_padded ws1 s ws2 :
  all_space ws1 → all_space ws2 →
  strip isspace (ws1 ++ s ++ ws2) = strip isspace s.
Proof.
  intros H1 H2. unfold strip. rewrite lstrip_space_app by done.
  induction s as [|c s IH].
  - simpl. by rewrite (lstrip_all_space _ H2).
  - cbn [app lstrip]. destruct (isspace c); [exact IH |].
    apply (rstrip_app_space (c :: s) ws2 H2).
Qed.

End cleaning_facts.

(** *** [replace] *)

Lemma replace_from_skip old new pre rest :
  replace_from old new (length pre) (pre ++ rest) = replace_from old new 0 rest.
Proof. induction pre as [|c pre IH]; [by destruct rest | done]. Qed.

(** Where [old] starts, it is replaced and the scan goes on behind it. *)
Lemma replace_match old new rest :
  old ≠ [] → replace old new (old ++ rest) = new ++ replace old new rest.
Proof.
  destruct old as [|o old]; [done |]. intros _.
  unfold replace. cbn [app replace_from].
  rewrite decide_True by (by exists rest).
  f_equal. assert (length (o :: old) - 1 = length old) as -> by (simpl; lia).
  apply replace_from_skip.
Qed.

(** Where [old] does not start, the character is kept. *)
Lemma replace_keep old new c s :
  old ≠ [] → ¬ old `prefix_of` c :: s →
  replace old new (c :: s) = c :: replace old new s.
Proof.
  destruct old as [|o old]; [done |]. intros _ Hno.
  unfold replace. cbn [replace_from]. by rewrite decide_False.
Qed.

Lemma replace_nil old new : old ≠ [] → replace old new [] = [].
Proof. by destruct old. Qed.

(** Induction along the scan of [replace]. *)
Lemma replace_ind old (P : text → Prop) :
  old ≠ [] →
  P [] →
  (∀ c s, ¬ old `prefix_of` c :: s → P s → P (c :: s)) →
  (∀ rest, P rest → P (old ++ rest)) →
  ∀ s, P s.
Proof.
  intros Hold Hnil Hkeep Hmatch s.
  remember (length s) as n eqn:Hn. revert s Hn.
  induction n as [n IH] using lt_wf_ind. intros s ->.
  assert (Hall : ∀ t, length t < length s → P t).
  { intros t Ht. by eapply IH. }
  clear IH. destruct s as [|c s]; [done |].
  destruct (decide (old `prefix_of` c :: s)) as [[rest Hrest]|Hno].
  - rewrite Hrest. apply Hmatch, Hall. rewrite Hrest, length_app.
    destruct old; [done | simpl; lia].
  - apply Hkeep; [done |]. apply Hall. simpl. lia.
Qed.

Lemma occurs_nil old : old ≠ [] → ¬ occurs old [].
Proof.
  intros Hold (a & b & Hs). symmetry in Hs.
  apply app_eq_nil in Hs as [_ [Ho _]%app_eq_nil]. done.
Qed.

Lemma occurs_cons old c s :
  occurs old (c :: s) ↔ old `prefix_of` c :: s ∨ occurs old s.
Proof.
  split.
  - intros ([|x a] & b & Hs); simpl in Hs.
    + left. by exists b.
    + right. exists a, b. by simplify_eq.
  - intros [[b Hb]|(a & b & Hs)].
    + by exists [], b.
    + exists (c :: a), b. by rewrite Hs.
Qed.

Lemma occurs_app old a s b : occurs old s → occurs old (a ++ s ++ b).
Proof.
  intros (x & y & ->). exists (a ++ x), (y ++ b). by rewrite <- !app_assoc.
Qed.

Lemma occurs_longer old more s : occurs (old ++ more) s → occurs old s.
Proof. intros (a & b & ->). exists a, (more ++ b). by rewrite <- !app_assoc. Qed.

(** A text in which [old] does not occur is left as it is. *)
Lemma replace_absent old new s :
  old ≠ [] → ¬ occurs old s → replace old new s = s.
Proof.
  intros Hold. induction s as [|c s IH]; intros Hno.
  - by apply replace_nil.
  - rewrite occurs_cons in Hno.
    rewrite replace_keep by tauto. rewrite IH; [done | tauto].
Qed.

(** *** The fence of three backticks *)

Lemma fence_prefix_leading s :
  fence `prefix_of` s ↔ (3 ≤ leading_backticks s)%nat.
Proof.
  split.
  - intros [rest ->]. simpl. lia.
  - destruct s as [|c1 [|c2 [|c3 s]]]; simpl; repeat case_decide; try lia.
    intros _. subst. by exists s.
Qed.

Lemma leading_backticks_length s : (leading_backticks s ≤ length s)%nat.
Proof. induction s as [|c s IH]; simpl; [done |]. case_decide; lia. Qed.

Lemma leading_backticks_all s :
  leading_backticks s = length s → s = replicate (length s) backtick.
Proof.
  induction s as [|c s IH]; simpl; [done |].
  case_decide; [|lia]. intros [= Hs]. subst c. by rewrite <- IH.
Qed.

Lemma leading_backticks_app s rest :
  leading_backticks s < length s →
  leading_backticks (s ++ rest) = leading_backticks s.
Proof.
  induction s as [|c s IH]; simpl; [lia |].
  case_decide; [|done]. intros Hlt. rewrite IH; [done | lia].
Qed.

(** Removing the fences leaves no fence, and no more backticks at the
    start than there were. *)
Lemma replace_fence_spec s :
  ¬ occurs fence (replace fence [] s) ∧
  (leading_backticks (replace fence [] s) ≤ leading_backticks s)%nat.
Proof.
  revert s. apply (replace_ind fence); [done | | |].
  - split; [by apply occurs_nil | done].
  - intros c s Hno [IHo IHl]. rewrite replace_keep by done. split.
    + rewrite occurs_cons. intros [Hpre|Hocc]; [|done].
      apply Hno. apply fence_prefix_leading in Hpre.
      apply fence_prefix_leading. simpl in *. repeat case_decide; lia.
    + cbn [leading_backticks]. repeat case_decide; lia.
  - intros rest [IHo IHl]. rewrite replace_match by done. split; [done |].
    cbn [app]. change (leading_backticks (fence ++ rest))
      with (S (S (S (leading_backticks rest)))). lia.
Qed.

(** *** A fenced answer *)

Lemma occurs_strip isspace old s :
  occurs old (strip isspace s) → occurs old s.
Proof.
  intros Hocc. destruct (strip_split isspace s) as (l & r & Hs & _ & _).
  rewrite Hs. by apply occurs_app.
Qed.

Lemma no_backtick_no_fence s : backtick ∉ s → ¬ occurs fence s.
Proof.
  intros Hno (a & b & ->). apply Hno.
  rewrite !elem_of_app. right. left. simpl. left.
Qed.

(** A text without a fence, followed by a fence, has no ["```json"]. *)
Lemma fence_json_absent body :
  ¬ occurs fence body → ¬ occurs fence_json (body ++ fence).
Proof.
  induction body as [|c body IH]; intros Hno.
  - intros (a & b & Hs). apply (f_equal length) in Hs.
    rewrite !length_app in Hs. simpl in Hs. lia.
  - rewrite occurs_cons in Hno. cbn [app]. rewrite occurs_cons.
    intros [[rest Hpre]|Hocc]; [|apply IH; tauto].
    destruct (decide (leading_backticks (c :: body) < length (c :: body)))
      as [Hshort|Hall].
    + assert (fence `prefix_of` (c :: body) ++ fence) as Hf.
      { exists (lit "json" ++ rest). by rewrite (app_assoc fence (lit "json") rest). }
      apply fence_prefix_leading in Hf.
      rewrite leading_backticks_app in Hf by done.
      apply fence_prefix_leading in Hf. tauto.
    + pose proof (leading_backticks_length (c :: body)) as Hle.
      assert (Hrep : c :: body = replicate (length (c :: body)) backtick)
        by (apply leading_backticks_all; lia).
      assert (Hlen : length (c :: body) < 3).
      { destruct (decide (length (c :: body) < 3)) as [|Hge]; [done |].
        exfalso. apply Hno. left. apply fence_prefix_leading. lia. }
      destruct body as [|c2 [|c3 body]]; simpl in Hlen, Hrep; [| |lia];
        simplify_eq; simpl in Hpre; by simplify_eq.
Qed.

(** Removing the fences from a text without a fence, followed by a
    fence, gives the text back. *)
Lemma replace_closing_fence body :
  ¬ occurs fence body → replace fence [] (body ++ fence) = body.
Proof.
  induction body as [|c body IH]; intros Hno.
  - reflexivity.
  - rewrite occurs_cons in Hno.
    destruct (decide (fence `prefix_of` (c :: body) ++ fence)) as [Hpre|Hpre].
    + destruct (decide (leading_backticks (c :: body) < length (c :: body)))
        as [Hshort|Hall].
      * apply fence_prefix_leading in Hpre.
        rewrite leading_backticks_app in Hpre by done.
        apply fence_prefix_leading in Hpre. tauto.
      * pose proof (leading_backticks_length (c :: body)) as Hle.
        assert (Hrep : c :: body = replicate (length (c :: body)) backtick)
          by (apply leading_backticks_all; lia).
        assert (Hlen : length (c :: body) < 3).
        { destruct (decide (length (c :: body) < 3)) as [|Hge]; [done |].
          exfalso. apply Hno. left. apply fence_prefix_leading. lia. }
        rewrite Hrep.
        destruct body as [|c2 [|c3 body]]; simpl in Hlen; [done | done | lia].
    + cbn [app] in *. rewrite replace_keep by done. rewrite IH; [done | tauto].
Qed.

Lemma fenced_trimmed isspace body :
  isspace backtick = false →
  trimmed isspace (fence_json ++ body ++ fence).
Proof.
  intros Hb. split.
  - simpl. by intros c [= <-].
  - intros c. rewrite app_assoc.
    change fence with ([backtick; backtick] ++ [backtick]).
    rewrite app_assoc, last_snoc. by intros [= <-].
Qed.

(** *** What [json.loads] is given *)

(** X1: the text given to the parser contains no fence of three
    backticks (so no ["```json"] either) and neither starts nor ends
    with whitespace, whatever the model answered. *)
Theorem clean_response_has_no_fence isspace response_text :
  ¬ occurs fence (clean_response isspace response_text) ∧
  ¬ occurs fence_json (clean_response isspace response_text) ∧
  trimmed isspace (clean_response isspace response_text).
Proof.
  assert (Hno : ¬ occurs fence (clean_response isspace response_text)).
  { intros Hocc%occurs_strip. by apply replace_fence_spec in Hocc. }
  split_and!; [done | | apply strip_trimmed].
  intros Hocc. apply Hno. by apply (occurs_longer fence (lit "json")).
Qed.

Lemma clean_response_no_fence isspace t :
  ¬ occurs fence t → clean_response isspace t = strip isspace t.
Proof.
  intros Hno. unfold clean_response.
  assert (Hs : ¬ occurs fence (strip isspace t))
    by (intros Hocc%occurs_strip; done).
  rewrite (replace_absent fence_json); [|done |].
  - rewrite (replace_absent fence) by done.
    apply strip_id, strip_trimmed.
  - intros Hocc. apply Hs. by apply (occurs_longer fence (lit "json")).
Qed.

(** X2: cleaning a cleaned text changes nothing. *)
Theorem clean_response_idempotent isspace response_text :
  clean_response isspace (clean_response isspace response_text) =
  clean_response isspace response_text.
Proof.
  destruct (clean_response_has_no_fence isspace response_text) as (Hno & _ & Htrim).
  rewrite clean_response_no_fence by done. by apply strip_id.
Qed.

(** X3: an answer without a fence is only trimmed. *)
Theorem clean_response_without_fence isspace response_text :
  ¬ occurs fence response_text →
  clean_response isspace response_text = strip isspace response_text.
Proof. apply clean_response_no_fence. Qed.

(** The theorem at the answer [" {} "]. *)
Lemma clean_response_without_fence_witness :
  ¬ occurs fence (lit " {} ") ∧
  clean_response ascii_space (lit " {} ") = strip ascii_space (lit " {} ").
Proof.
  assert (Hno : ¬ occurs fence (lit " {} ")).
  { apply no_backtick_no_fence. compute_done. }
  split; [exact Hno |].
  exact (clean_response_without_fence ascii_space (lit " {} ") Hno).
Defined.

Lemma clean_response_in_fence isspace ws1 body ws2 :
  isspace backtick = false →
  Forall (λ c, isspace c = true) ws1 →
  Forall (λ c, isspace c = true) ws2 →
  ¬ occurs fence body →
  clean_response isspace (ws1 ++ fence_json ++ body ++ fence ++ ws2) =
  strip isspace body.
Proof.
  intros Hb H1 H2 Hno. unfold clean_response.
  replace (ws1 ++ fence_json ++ body ++ fence ++ ws2)
    with (ws1 ++ (fence_json ++ body ++ fence) ++ ws2)
    by (by rewrite <- !app_assoc).
  rewrite strip_padded by done.
  rewrite (strip_id _ _ (fenced_trimmed isspace body Hb)).
  rewrite (replace_match fence_json) by done. cbn [app].
  rewrite (replace_absent fence_json); [| done | by apply fence_json_absent].
  by rewrite replace_closing_fence.
Qed.

(** X4: of an answer that consists of ["```json"], a body without a
    fence, and ["```"], with whitespace around, the parser is given the
    trimmed body. *)
Theorem clean_response_fenced isspace ws1 body ws2 :
  isspace backtick = false →
  Forall (λ c, isspace c = true) ws1 →
  Forall (λ c, isspace c = true) ws2 →
  ¬ occurs fence body →
  clean_response isspace (ws1 ++ fence_json ++ body ++ fence ++ ws2) =
  strip isspace body.
Proof. apply clean_response_in_fence. Qed.

(** The theorem at a fenced empty object with a newline inside the
    fence. *)
Lemma clean_response_fenced_witness :
  ascii_space backtick = false ∧
  Forall (λ c, ascii_space c = true) (lit " ") ∧
  Forall (λ c, ascii_space c = true) [10%N] ∧
  ¬ occurs fence ([10%N] ++ lit "{}" ++ [10%N]) ∧
  clean_response ascii_space
    (lit " " ++ fence_json ++ ([10%N] ++ lit "{}" ++ [10%N]) ++ fence ++ [10%N]) =
  lit "{}".
Proof.
  assert (H1 : Forall (λ c, ascii_space c = true) (lit " "))
    by (by repeat constructor).
  assert (H2 : Forall (λ c, ascii_space c = true) [10%N])
    by (by repeat constructor).
  assert (Hno : ¬ occurs fence ([10%N] ++ lit "{}" ++ [10%N])).
  { apply no_backtick_no_fence. compute_done. }
  split_and!; [reflexivity | exact H1 | exact H2 | exact Hno |].
  exact (eq_trans
           (clean_response_fenced ascii_space (lit " ") _ [10%N] eq_refl H1 H2 Hno)
           eq_refl).
Defined.

(** ** From the answers of the model to the answer of the endpoint *)

(** The loop asks [analyze_image] about the images of the batch only. *)
Lemma collect_ext (analyze1 analyze2 : image → outcome entry) files responses :
  (∀ img, img ∈ files → analyze1 img = analyze2 img) →
  collect analyze1 files responses = collect analyze2 files responses.
Proof.
  revert responses. induction files as [|img files IH]; intros responses Hext; [done |].
  simpl. rewrite <- (Hext img) by left.
  destruct (analyze1 img) as [a|e]; [|done].
  rewrite IH; [done |]. intros img' Hin. apply Hext. by right.
Qed.

Lemma analyze_image_returns isspace generate_content json_loads img t :
  generate_content img = Return t →
  analyze_image isspace generate_content json_loads img =
  match json_loads (clean_response isspace t) with
  | Some parsed => Return parsed
  | None => Return invalid_response
  end.
Proof. intros Ht. unfold analyze_image. by rewrite Ht. Qed.

(** X5: when the model answers for every image and the parser rejects
    every cleaned answer, the endpoint returns the error object, after
    one call of the model per image and no call of the merger. *)
Theorem unparseable_batch_fails `{SetOrder} isspace generate_content json_loads
    files texts :
  Forall2 (λ img t, generate_content img = Return t) files texts →
  Forall (λ t, json_loads (clean_response isspace t) = None) texts →
  identify_medicine (analyze_image isspace generate_content json_loads) files =
    (CallAnalyze <$> files,
     Return (ErrorResponse "Failed to identify medicine from provided images")).
Proof.
  intros Hgen Hbad. unfold identify_medicine.
  assert (Hall : Forall2
    (λ img a, analyze_image isspace generate_content json_loads img = Return a)
    files (replicate (length files) invalid_response)).
  { induction Hgen as [|img t files texts Ht Hgen IH]; [constructor |].
    apply Forall_cons in Hbad as [Hparse Hbad].
    simpl. constructor; [|by apply IH].
    by rewrite (analyze_image_returns _ _ _ _ _ Ht), Hparse. }
  rewrite (collect_returns _ _ _ _ Hall).
  assert (Hnone : ∀ n, usable (replicate n invalid_response) = []).
  { unfold usable. intros n. induction n as [|n IH]; [done |].
    simpl. by rewrite filter_cons, decide_False. }
  by rewrite Hnone.
Qed.

(** The theorem at two images that get an answer which is no JSON. *)
Lemma unparseable_batch_fails_witness :
  Forall2 (λ img t, sample_generate img = Return t)
    [[]; []] [lit "no medicine here"; lit "no medicine here"] ∧
  Forall (λ t, sample_loads (clean_response ascii_space t) = None)
    [lit "no medicine here"; lit "no medicine here"] ∧
  @identify_medicine last_seen_order
    (analyze_image ascii_space sample_generate sample_loads) [[]; []] =
    ([CallAnalyze []; CallAnalyze []],
     Return (ErrorResponse "Failed to identify medicine from provided images")).
Proof.
  assert (Hgen : Forall2 (λ img t, sample_generate img = Return t)
    [[]; []] [lit "no medicine here"; lit "no medicine here"])
    by (by repeat constructor).
  assert (Hbad : Forall (λ t, sample_loads (clean_response ascii_space t) = None)
    [lit "no medicine here"; lit "no medicine here"])
    by (by repeat constructor).
  split_and!; [exact Hgen | exact Hbad |].
  exact (@unparseable_batch_fails last_seen_order ascii_space sample_generate
           sample_loads _ _ Hgen Hbad).
Defined.

(** X6: the answer of the endpoint is the same whether the model gives
    its answers bare or inside a fence: if for every image of the batch
    one model answers with a text without a fence and another with that
    text between ["```json"] and ["```"], with whitespace around, the
    endpoint makes the same calls and returns the same for both. *)
Theorem fenced_answers_same_result `{SetOrder} isspace json_loads
    (bare wrapped : image → outcome text) files :
  isspace backtick = false →
  (∀ img, img ∈ files →
     ∃ t t', bare img = Return t ∧ wrapped img = Return t' ∧
             ¬ occurs fence t ∧ fenced isspace t t') →
  identify_medicine (analyze_image isspace wrapped json_loads) files =
  identify_medicine (analyze_image isspace bare json_loads) files.
Proof.
  intros Hb Hall. unfold identify_medicine.
  rewrite (collect_ext (analyze_image isspace wrapped json_loads)
                       (analyze_image isspace bare json_loads)); [done |].
  intros img Hin.
  destruct (Hall img Hin) as (t & t' & Ht & Ht' & Hno & ws1 & ws2 & H1 & H2 & ->).
  rewrite (analyze_image_returns _ _ _ _ _ Ht), (analyze_image_returns _ _ _ _ _ Ht').
  by rewrite clean_response_in_fence, clean_response_no_fence.
Qed.

(** The theorem at a batch of one image. *)
Lemma fenced_answers_same_result_witness :
  ascii_space backtick = false ∧
  @identify_medicine last_seen_order
    (analyze_image ascii_space sample_generate_fenced sample_loads) [["A"%byte]] =
  @identify_medicine last_seen_order
    (analyze_image ascii_space sample_generate sample_loads) [["A"%byte]].
Proof.
  split; [reflexivity |].
  apply (@fenced_answers_same_result last_seen_order ascii_space sample_loads
           sample_generate sample_generate_fenced [["A"%byte]] eq_refl).
  intros img ->%list_elem_of_singleton.
  exists (lit "{}"), (lit " ```json{}``` "). split_and!; [done | done | |].
  - apply no_backtick_no_fence. compute_done.
  - exists (lit " "), (lit " "). split_and!; [by repeat constructor.. | done].
Defined.

(** The theorem at a batch whose second image finds the model down. *)
Lemma identify_medicine_raises_witness :
  Forall2 (λ img a, sample_model_down img = Return a)
    [["A"%byte]] [with_accurate (named "A")] ∧
  sample_model_down [] = Raise (TransportError "unreachable") ∧
  @identify_medicine last_seen_order sample_model_down
    ([["A"%byte]] ++ [] :: [["B"%byte]]) =
    ([CallAnalyze ["A"%byte]; CallAnalyze []],
     Raise (TransportError "unreachable")).
Proof.
  assert (Hall : Forall2 (λ img a, sample_model_down img = Return a)
    [["A"%byte]] [with_accurate (named "A")]) by (by repeat constructor).
  split_and!; [exact Hall | reflexivity |].
  exact (@identify_medicine_raises last_seen_order sample_model_down
           [["A"%byte]] [] [["B"%byte]] _ _ Hall eq_refl).
Defined.

(** ** More on the vote *)

Lemma tally_app v vs ws : tally v (vs ++ ws) = tally v vs + tally v ws.
Proof. unfold tally. by rewrite filter_app, length_app. Qed.

Lemma tally_cons v x vs :
  tally v (x :: vs) = (if decide (x = v) then 1 else 0) + tally v vs.
Proof. unfold tally. rewrite filter_cons. by case_decide. Qed.

Lemma tally_two u v vs : u ≠ v → (tally u vs + tally v vs ≤ length vs)%nat.
Proof.
  intros Hne. induction vs as [|x vs IH]; [done |].
  rewrite !tally_cons. simpl. repeat case_decide; simplify_eq; lia.
Qed.

Lemma votes_length l f results :
  length (votes l f results) = length (filter (has_field l f) results).
Proof.
  unfold votes, has_field. induction results as [|e results IH]; [done |].
  rewrite filter_cons. csimpl. destruct (observed l f e) as [v|] eqn:Hv.
  - rewrite decide_True by eauto. simpl. by rewrite IH.
  - rewrite decide_False by (by intros [? ?]). done.
Qed.

Lemma votes_app l f rs1 rs2 :
  votes l f (rs1 ++ rs2) = votes l f rs1 ++ votes l f rs2.
Proof. apply omap_app. Qed.

(** The value picked has at least as many votes as any other. *)
Lemma pick_max vs u : (tally u vs ≤ tally (pick (tally_counter vs)) vs)%nat.
Proof.
  destruct vs as [|x vs]; [unfold tally; simpl; lia |].
  by apply pick_spec.
Qed.

(** A value with more votes than any other is the one picked. *)
Lemma pick_strict vs v :
  v ∈ vs → (∀ u, u ≠ v → tally u vs < tally v vs) → pick (tally_counter vs) = v.
Proof.
  intros Hin Hstrict.
  destruct (decide (pick (tally_counter vs) = v)) as [|Hne]; [done |].
  pose proof (pick_max vs v). specialize (Hstrict _ Hne). lia.
Qed.

(** The value picked is the only one with the two properties of
    [pick_spec]. *)
Lemma pick_unique vs v :
  v ∈ vs →
  (∀ u, (tally u vs ≤ tally v vs)%nat) →
  (∀ w, w ≠ v → tally w vs = tally v vs → first_pos v vs < first_pos w vs) →
  pick (tally_counter vs) = v.
Proof.
  intros Hin Hmax Hfirst.
  assert (Hvs : vs ≠ []) by (intros ->; by apply elem_of_nil in Hin).
  destruct (pick_spec vs Hvs) as (_ & Hmax' & Hfirst').
  destruct (decide (pick (tally_counter vs) = v)) as [|Hne]; [done |].
  assert (Htie : tally (pick (tally_counter vs)) vs = tally v vs).
  { pose proof (Hmax (pick (tally_counter vs))). pose proof (Hmax' v). lia. }
  pose proof (Hfirst _ Hne Htie).
  pose proof (Hfirst' v (not_eq_sym Hne) (eq_sym Htie)). lia.
Qed.

Lemma support_perm v l f results results' :
  results ≡ₚ results' → support v l f results = support v l f results'.
Proof. intros Hp. unfold support. by rewrite Hp. Qed.

Lemma listed_effect_perm l results results' x :
  results ≡ₚ results' → listed_effect l results x ↔ listed_effect l results' x.
Proof.
  intros Hp. unfold listed_effect.
  split; intros (e & xs & He & Hrest); exists e, xs; split; try done.
  - by rewrite <- Hp.
  - by rewrite Hp.
Qed.

(** X8: a value that more than half of the entries with the field
    supply is the value returned for the field, wherever these entries
    stand in the input. *)
Theorem majority_value_wins `{SetOrder} results l f v :
  length (filter (has_field l f) results) < 2 * support v l f results →
  ∃ r, merge_results results = Return r ∧ consolidated l f r = v.
Proof.
  intros Hmaj. eexists. split; [apply merge_results_returns |].
  rewrite consolidated_returns.
  rewrite <- votes_length, support_tally in Hmaj.
  apply pick_strict.
  - apply tally_positive. lia.
  - intros u Hu. pose proof (tally_two u v (votes l f results) Hu). lia.
Qed.

(** The theorem at dosages 250mg, 500mg, 500mg and an entry without a
    dosage. *)
Lemma majority_value_wins_witness :
  length (filter (has_field Accurate Dosage)
            [with_accurate (dosed "250mg"); with_accurate (dosed "500mg");
             Dict empty_dict; with_accurate (dosed "500mg")])
    < 2 * support "500mg" Accurate Dosage
            [with_accurate (dosed "250mg"); with_accurate (dosed "500mg");
             Dict empty_dict; with_accurate (dosed "500mg")] ∧
  ∃ r, @merge_results last_seen_order
         [with_accurate (dosed "250mg"); with_accurate (dosed "500mg");
          Dict empty_dict; with_accurate (dosed "500mg")] = Return r ∧
       consolidated Accurate Dosage r = "500mg".
Proof.
  assert (Hmaj : length (filter (has_field Accurate Dosage)
            [with_accurate (dosed "250mg"); with_accurate (dosed "500mg");
             Dict empty_dict; with_accurate (dosed "500mg")])
    < 2 * support "500mg" Accurate Dosage
            [with_accurate (dosed "250mg"); with_accurate (dosed "500mg");
             Dict empty_dict; with_accurate (dosed "500mg")])
    by (vm_compute; lia).
  split; [exact Hmaj |].
  exact (@majority_value_wins last_seen_order _ Accurate Dosage "500mg" Hmaj).
Defined.

(** X9: putting the entries in another order leaves the set of side
    effects of each lens as it is, and can change a text field only to
    a value supplied by just as many entries; a field whose value has
    more support than every other value does not change. *)
Theorem reordering_changes_ties_only `{SetOrder} results results' :
  results ≡ₚ results' →
  ∃ r r', merge_results results = Return r ∧
          merge_results results' = Return r' ∧
    (∀ l, c_side_effects (lens_of l r) ≡ₚ c_side_effects (lens_of l r')) ∧
    (∀ l f, support (consolidated l f r') l f results =
            support (consolidated l f r) l f results) ∧
    (∀ l f, (∀ u, u ≠ consolidated l f r →
                  support u l f results < support (consolidated l f r) l f results) →
            consolidated l f r' = consolidated l f r).
Proof.
  intros Hp. do 2 eexists. split_and!; [apply merge_results_returns.. | | |].
  - intros l. destruct l; simpl; apply list_of_set_perm; intros x;
      rewrite !effects_elem; by apply listed_effect_perm.
  - intros l f. rewrite !consolidated_returns.
    pose proof (pick_max (votes l f results)
                  (pick (tally_counter (votes l f results')))) as H1.
    pose proof (pick_max (votes l f results')
                  (pick (tally_counter (votes l f results)))) as H2.
    rewrite <- !support_tally in H1, H2.
    rewrite <- !(support_perm _ l f _ _ Hp) in H2. lia.
  - intros l f Hstrict. rewrite !consolidated_returns in *.
    destruct (decide (pick (tally_counter (votes l f results')) =
                      pick (tally_counter (votes l f results)))) as [|Hne]; [done |].
    specialize (Hstrict _ Hne).
    pose proof (pick_max (votes l f results')
                  (pick (tally_counter (votes l f results)))) as H2.
    rewrite <- !support_tally in H2.
    rewrite <- !(support_perm _ l f _ _ Hp) in H2. lia.
Qed.

(** The theorem at two entries naming ["A"] and ["B"], swapped. *)
Lemma reordering_changes_ties_only_witness :
  [with_accurate (named "A"); with_accurate (named "B")] ≡ₚ
  [with_accurate (named "B"); with_accurate (named "A")] ∧
  ∃ r r',
    @merge_results last_seen_order
      [with_accurate (named "A"); with_accurate (named "B")] = Return r ∧
    @merge_results last_seen_order
      [with_accurate (named "B"); with_accurate (named "A")] = Return r' ∧
    support (consolidated Accurate Name r') Accurate Name
      [with_accurate (named "A"); with_accurate (named "B")] =
    support (consolidated Accurate Name r) Accurate Name
      [with_accurate (named "A"); with_accurate (named "B")].
Proof.
  assert (Hp : [with_accurate (named "A"); with_accurate (named "B")] ≡ₚ
               [with_accurate (named "B"); with_accurate (named "A")])
    by apply Permutation_swap.
  split; [exact Hp |].
  destruct (@reordering_changes_ties_only last_seen_order _ _ Hp)
    as (r & r' & Hr & Hr' & _ & Htie & _).
  exists r, r'. split_and!; [exact Hr | exact Hr' | apply Htie].
Defined.

Lemma votes_ext l f results results' :
  Forall2 (λ e e', observed l f e = observed l f e') results results' →
  votes l f results = votes l f results'.
Proof.
  unfold votes. induction 1 as [|e e' results results' He Hall IH]; [done |].
  csimpl. by rewrite He, IH.
Qed.

Lemma effects_ext l results results' :
  Forall2 (λ e e', observed_effects l e = observed_effects l e') results results' →
  effects l results = effects l results'.
Proof.
  unfold effects. induction 1 as [|e e' results results' He Hall IH]; [done |].
  csimpl. rewrite He. destruct (observed_effects l e'); csimpl; by rewrite ?IH.
Qed.

(** X10: what is returned under a lens depends only on what the
    dictionaries hold under that lens: two inputs whose entries agree,
    one by one, in the fields and side effects of the lens give the same
    result under it, whatever they hold under the other lens or under
    ["error"], and whichever of their entries are no dictionaries. *)
Theorem lens_depends_on_its_entries_only `{SetOrder} results results' l :
  Forall2 (λ e e', (∀ f, observed l f e = observed l f e') ∧
                   observed_effects l e = observed_effects l e')
          results results' →
  ∃ r r', merge_results results = Return r ∧
          merge_results results' = Return r' ∧
          lens_of l r = lens_of l r'.
Proof.
  intros Hall. do 2 eexists. split_and!; [apply merge_results_returns.. |].
  assert (Hv : ∀ f, votes l f results = votes l f results').
  { intros f. apply votes_ext. eapply Forall2_impl; [exact Hall |].
    by intros e e' [Hf _]. }
  assert (He : effects l results = effects l results').
  { apply effects_ext. eapply Forall2_impl; [exact Hall |].
    by intros e e' [_ Hx]. }
  destruct l; simpl; unfold consolidated_lens; by rewrite !Hv, He.
Qed.

(** The theorem at an entry naming ["A"] with and without a guess, and
    an empty dictionary against a text that is no dictionary. *)
Lemma lens_depends_on_its_entries_only_witness :
  Forall2 (λ e e', (∀ f, observed Accurate f e = observed Accurate f e') ∧
                   observed_effects Accurate e = observed_effects Accurate e')
    [with_accurate (named "A"); Dict empty_dict]
    [Dict {| accurate := Some (named "A"); guessed := Some (named "B");
             error := Some "x" |};
     NotDict "null"] ∧
  ∃ r r',
    @merge_results last_seen_order
      [with_accurate (named "A"); Dict empty_dict] = Return r ∧
    @merge_results last_seen_order
      [Dict {| accurate := Some (named "A"); guessed := Some (named "B");
               error := Some "x" |};
       NotDict "null"] = Return r' ∧
    lens_of Accurate r = lens_of Accurate r'.
Proof.
  assert (Hall : Forall2
    (λ e e', (∀ f, observed Accurate f e = observed Accurate f e') ∧
             observed_effects Accurate e = observed_effects Accurate e')
    [with_accurate (named "A"); Dict empty_dict]
    [Dict {| accurate := Some (named "A"); guessed := Some (named "B");
             error := Some "x" |};
     NotDict "null"]) by (by repeat constructor).
  split; [exact Hall |].
  exact (@lens_depends_on_its_entries_only last_seen_order _ _ Accurate Hall).
Defined.

Lemma join_replicate_S {A} n (xs : list A) :
  mjoin (replicate (S n) xs) = xs ++ mjoin (replicate n xs).
Proof. done. Qed.

Lemma elem_of_join_replicate {A} n (xs : list A) x :
  x ∈ mjoin (replicate (S n) xs) ↔ x ∈ xs.
Proof.
  induction n as [|n IH].
  - simpl. by rewrite app_nil_r.
  - rewrite join_replicate_S, elem_of_app, IH. tauto.
Qed.

Lemma votes_join_replicate l f n results :
  votes l f (mjoin (replicate n results)) = mjoin (replicate n (votes l f results)).
Proof.
  induction n as [|n IH]; [done |].
  by rewrite !join_replicate_S, votes_app, IH.
Qed.

Lemma tally_join_replicate v n vs :
  tally v (mjoin (replicate n vs)) = n * tally v vs.
Proof.
  induction n as [|n IH]; [done |].
  rewrite join_replicate_S, tally_app, IH. lia.
Qed.

(** Repeating the votes does not change the value picked. *)
Lemma pick_join_replicate n vs :
  pick (tally_counter (mjoin (replicate (S n) vs))) = pick (tally_counter vs).
Proof.
  destruct (decide (vs = [])) as [->|Hvs].
  { assert (mjoin (replicate (S n) []) = @nil string) as ->; [|done].
    induction n as [|n IH]; [done |]. by rewrite join_replicate_S. }
  destruct (pick_spec vs Hvs) as (Hin & Hmax & Hfirst).
  set (v := pick (tally_counter vs)) in *.
  apply pick_unique.
  - by apply elem_of_join_replicate.
  - intros u. rewrite !tally_join_replicate.
    apply Nat.mul_le_mono_l, Hmax.
  - intros w Hw Htie. rewrite !tally_join_replicate in Htie.
    apply Nat.mul_cancel_l in Htie; [|done].
    assert (w ∈ vs) as Hwin.
    { apply tally_positive. rewrite Htie. by apply tally_positive. }
    rewrite join_replicate_S, !first_pos_app_l by done. by apply Hfirst.
Qed.

(** X11: merging a batch and merging the same batch repeated any
    number of times return the same text fields and the same sets of
    side effects. *)
Theorem repeated_batch_same_result `{SetOrder} results n :
  ∃ r r', merge_results results = Return r ∧
          merge_results (mjoin (replicate (S n) results)) = Return r' ∧
          same_result r r'.
Proof.
  do 2 eexists. split_and!; [apply merge_results_returns.. |].
  assert (Hv : ∀ l f,
    pick (tally_counter (votes l f results)) =
    pick (tally_counter (votes l f (mjoin (replicate (S n) results))))).
  { intros l f. by rewrite votes_join_replicate, pick_join_replicate. }
  assert (He : ∀ l, list_of_set (effects l results) ≡ₚ
                    list_of_set (effects l (mjoin (replicate (S n) results)))).
  { intros l. apply list_of_set_perm. intros x. rewrite !effects_elem.
    unfold listed_effect. split; intros (e & xs & He & Hrest); exists e, xs;
      (split; [|done]); by apply (elem_of_join_replicate n results e). }
  split; unfold same_lens, consolidated_lens;
    cbn [c_accurate c_guessed c_name c_dosage c_manufacturer c_usage c_side_effects];
    split_and!; first [apply Hv | apply He].
Qed.

(** X12: one more entry that supplies the value returned so far for a
    field, put anywhere in the input, leaves that value the one
    returned. *)
Theorem vote_for_winner_keeps_it `{SetOrder} before after e l f :
  ∃ r r', merge_results (before ++ after) = Return r ∧
          merge_results (before ++ e :: after) = Return r' ∧
          (observed l f e = Some (consolidated l f r) →
           consolidated l f r' = consolidated l f r).
Proof.
  do 2 eexists. split_and!; [apply merge_results_returns.. |].
  rewrite !consolidated_returns. intros He.
  set (vs := votes l f (before ++ after)) in *.
  set (v := pick (tally_counter vs)) in *.
  assert (Hnew : ∀ u, tally u (votes l f (before ++ e :: after)) =
                      (if decide (v = u) then 1 else 0) + tally u vs).
  { intros u. unfold vs. rewrite !votes_app. unfold votes at 2. csimpl.
    rewrite He. csimpl. fold (votes l f after).
    rewrite !tally_app, tally_cons. lia. }
  apply pick_strict.
  - apply tally_positive. rewrite Hnew, decide_True by done. lia.
  - intros u Hu. rewrite !Hnew.
    pose proof (pick_max vs u) as Hmax. fold v in Hmax.
    repeat case_decide; try congruence; lia.
Qed.
